(** * RoboDibuix: command tree, pose geometry and execution engine

    A shallow embedding of the core of the RoboDibuix application
    (types.ts, constants.ts and the state, tree helpers and execution
    engine of App.tsx), with the properties of its specification.

    Conventions.
    - A TypeScript [number] that the program only ever fills with integers
      (the [value] of a command: 1, 2, 90 or [parseInt(..) || 0]) is a [Z].
      Pose coordinates and angles, which go through [Math.cos] and
      [Math.sin], are real numbers [R]: the arithmetic is the exact one,
      rounding of IEEE doubles is not modelled.
    - [children?: Command[]] is an [option (list Command)]: [None] is
      [undefined]; an array, even an empty one, is truthy in JavaScript.
    - React state setters are state updates applied in call order.
    - An [async] call is followed from its start to its end where one run
      is concerned, with Stop as the only event from outside; where calls
      overlap, the event loop is modelled with its queue of suspended
      calls ([Machine]), and the two views are proved to agree on one run.
    - [playSound] only drives the audio output and is left out. *)

From Stdlib Require Import ZArith List Ascii String Bool Lia Reals Lra.
From stdpp Require Import base list.
Import ListNotations.

Local Open Scope Z_scope.

(* ===================================================================== *)
(** * Data model (types.ts) *)
(* ===================================================================== *)

Inductive CommandType : Set :=
  | FORWARD
  | BACKWARD
  | TURN_RIGHT
  | TURN_LEFT
  | REPEAT.

Definition CommandType_eqb (a b : CommandType) : bool :=
  match a, b with
  | FORWARD, FORWARD | BACKWARD, BACKWARD | TURN_RIGHT, TURN_RIGHT
  | TURN_LEFT, TURN_LEFT | REPEAT, REPEAT => true
  | _, _ => false
  end.

#[local] Unset Elimination Schemes.

Inductive Command : Type := mkCommand {
  id : string;
  type : CommandType;
  value : Z;
  children : option (list Command)   (* For nested commands in REPEAT *)
}.

#[local] Set Elimination Schemes.

(** Induction over a command tree: the children of a node satisfy the
    property before the node does. *)
Section CommandInduction.
Variable P : Command -> Prop.
Hypothesis P_leaf : forall i t v, P (mkCommand i t v None).
Hypothesis P_node :
  forall i t v cs, Forall P cs -> P (mkCommand i t v (Some cs)).

Fixpoint Command_tree_ind (c : Command) : P c :=
  match c with
  | mkCommand i t v None => P_leaf i t v
  | mkCommand i t v (Some cs) =>
      P_node i t v cs
        ((fix all (l : list Command) : Forall P l :=
            match l with
            | [] => List.Forall_nil P
            | k :: l' => List.Forall_cons P k l' (Command_tree_ind k) (all l')
            end) cs)
  end.
End CommandInduction.

(** The object spreads [{ ...c, children: ch }] and [{ ...c, value }]. *)
Definition withChildren (c : Command) (ch : option (list Command)) : Command :=
  mkCommand (id c) (type c) (value c) ch.

Definition withValue (c : Command) (v : Z) : Command :=
  mkCommand (id c) (type c) v (children c).

Record Point : Type := mkPoint { px : R; py : R }.

Record RobotState : Type := mkRobot {
  x : R;
  y : R;
  angle : R;        (* In degrees, 0 points East (Right) *)
  penDown : bool
}.

(* ===================================================================== *)
(** * Constants (constants.ts) *)
(* ===================================================================== *)

Definition GRID_SIZE : Z := 40.
Definition CANVAS_WIDTH : Z := 800.
Definition CANVAS_HEIGHT : Z := 600.
Definition START_X : R := (IZR CANVAS_WIDTH / 2)%R.
Definition START_Y : R := (IZR CANVAS_HEIGHT / 2)%R.
Definition START_ANGLE : R := (-90)%R.

Definition origin : Point := mkPoint START_X START_Y.
Definition initialState : RobotState := mkRobot START_X START_Y START_ANGLE true.

(* ===================================================================== *)
(** * Command tree edits (App.tsx, helpers and actions) *)
(* ===================================================================== *)

(** [updateTree], for a non-null [parentId]: the callback of [cmds.map]
    and the map itself, as one nested recursion on the tree. *)
Fixpoint updateTree_cmd (parentId : string)
    (updateFn : list Command -> list Command) (cmd : Command) : Command :=
  if String.eqb (id cmd) parentId then
    withChildren cmd (Some (updateFn (default [] (children cmd))))
  else
    match children cmd with
    | Some cs =>
        withChildren cmd (Some (map (updateTree_cmd parentId updateFn) cs))
    | None => cmd
    end.

Definition updateTree (cmds : list Command) (parentId : option string)
    (updateFn : list Command -> list Command) : list Command :=
  match parentId with
  | None => updateFn cmds
  | Some pid => map (updateTree_cmd pid updateFn) cmds
  end.

(** The command built by [handleAddCommand]; [uuid] stands for the result
    of [uuidv4()]. *)
Definition newCmd (uuid : string) (t : CommandType) : Command :=
  mkCommand uuid t
    (match t with
     | REPEAT => 2
     | TURN_LEFT | TURN_RIGHT => 90
     | _ => 1
     end)
    (match t with REPEAT => Some [] | _ => None end).

(** The state updater of [handleAddCommand], for any command: the
    specification's [insert]. *)
Definition insert (program : list Command) (containerId : option string)
    (command : Command) : list Command :=
  updateTree program containerId (fun list => (list ++ [command])%list).

(** [recursiveFilter] of [handleRemoveCommand]: [list.filter(..).map(..)],
    fused into one pass so that the recursion is structural; the equation
    [recursiveFilter_eq] below gives back the shape of the source. *)
Fixpoint recursiveFilter_cmd (rid : string) (c : Command) : Command :=
  withChildren c
    (match children c with
     | Some cs =>
         Some ((fix go (l : list Command) : list Command :=
                  match l with
                  | [] => []
                  | k :: l' =>
                      if negb (String.eqb (id k) rid)
                      then recursiveFilter_cmd rid k :: go l'
                      else go l'
                  end) cs)
     | None => None
     end).

Fixpoint recursiveFilter (rid : string) (lst : list Command) : list Command :=
  match lst with
  | [] => []
  | k :: l' =>
      if negb (String.eqb (id k) rid)
      then recursiveFilter_cmd rid k :: recursiveFilter rid l'
      else recursiveFilter rid l'
  end.

(** The specification's [remove]. *)
Definition remove (program : list Command) (commandId : string) : list Command :=
  recursiveFilter commandId program.

(** [recursiveUpdate] of [handleUpdateCommand], on command values. *)
Fixpoint recursiveUpdate_cmd (uid : string) (v : Z) (c : Command) : Command :=
  if String.eqb (id c) uid then withValue c v
  else
    match children c with
    | Some cs => withChildren c (Some (map (recursiveUpdate_cmd uid v) cs))
    | None => c
    end.

(** [findById] of [getVisibleCommands]: first match in depth-first order. *)
Fixpoint findById_cmd (fid : string) (c : Command) : option Command :=
  if String.eqb (id c) fid then Some c
  else
    match children c with
    | Some cs =>
        (fix go (l : list Command) : option Command :=
           match l with
           | [] => None
           | k :: l' =>
               match findById_cmd fid k with
               | Some found => Some found
               | None => go l'
               end
           end) cs
    | None => None
    end.

Fixpoint findById (lst : list Command) (fid : string) : option Command :=
  match lst with
  | [] => None
  | k :: l' =>
      match findById_cmd fid k with
      | Some found => Some found
      | None => findById l' fid
      end
  end.

(** The identifiers of all nodes of a tree, in depth-first order. *)
Fixpoint ids_cmd (c : Command) : list string :=
  id c ::
  match children c with
  | Some cs => flat_map ids_cmd cs
  | None => []
  end.

Definition ids (program : list Command) : list string := flat_map ids_cmd program.

(** The data-model invariant: only [REPEAT] nodes carry children. *)
Fixpoint onlyRepeatHasChildren_cmd (c : Command) : bool :=
  match children c with
  | None => true
  | Some cs =>
      CommandType_eqb (type c) REPEAT && forallb onlyRepeatHasChildren_cmd cs
  end.

Definition onlyRepeatHasChildren (program : list Command) : bool :=
  forallb onlyRepeatHasChildren_cmd program.

(** A container identifier resolves when [findById] reaches a [REPEAT]. *)
Definition resolvesToRepeat (program : list Command) (cid : string) : bool :=
  match findById program cid with
  | Some c => CommandType_eqb (type c) REPEAT
  | None => false
  end.

(* ===================================================================== *)
(** * Object identity of command nodes *)
(* ===================================================================== *)

(** JavaScript compares objects by reference.  To speak about which nodes
    an edit reuses, a node is paired with the address [ref] of the object
    that holds it; an object literal takes the next free address.  Nodes
    are never mutated in place, so a tree of addressed nodes describes the
    heap reachable from a program.  Arrays are kept as values. *)

Definition addr := nat.

#[local] Unset Elimination Schemes.

Inductive Obj : Type := mkObj {
  ref : addr;
  oid : string;
  otype : CommandType;
  ovalue : Z;
  ochildren : option (list Obj)
}.

#[local] Set Elimination Schemes.

Section ObjInduction.
Variable P : Obj -> Prop.
Hypothesis P_leaf : forall a i t v, P (mkObj a i t v None).
Hypothesis P_node :
  forall a i t v cs, Forall P cs -> P (mkObj a i t v (Some cs)).

Fixpoint Obj_tree_ind (c : Obj) : P c :=
  match c with
  | mkObj a i t v None => P_leaf a i t v
  | mkObj a i t v (Some cs) =>
      P_node a i t v cs
        ((fix all (l : list Obj) : Forall P l :=
            match l with
            | [] => List.Forall_nil P
            | k :: l' => List.Forall_cons P k l' (Obj_tree_ind k) (all l')
            end) cs)
  end.
End ObjInduction.

(** The command a node object holds. *)
Fixpoint contents (c : Obj) : Command :=
  mkCommand (oid c) (otype c) (ovalue c)
    (match ochildren c with
     | Some cs => Some (map contents cs)
     | None => None
     end).

(** [recursiveUpdate] of [handleUpdateCommand] on addressed nodes, for the
    [id] and [value] it closes over; [next] is the next free address and is
    threaded through the traversal.  [{ ...c, value }] and
    [{ ...c, children: .. }] are new objects; the object of a literal is
    created before its properties are evaluated; [return c] hands back the
    object it was given. *)
Section RecursiveUpdate.
Variable uid : string.
Variable v : Z.

Fixpoint recursiveUpdate_obj (c : Obj) (next : addr) : Obj * addr :=
  if String.eqb (oid c) uid then
    (mkObj next (oid c) (otype c) v (ochildren c), S next)
  else
    match ochildren c with
    | Some cs =>
        let '(cs', next') :=
          (fix recursiveUpdate (lst : list Obj) (n : addr) : list Obj * addr :=
             match lst with
             | [] => ([], n)
             | k :: l' =>
                 let '(k', n1) := recursiveUpdate_obj k n in
                 let '(l'', n2) := recursiveUpdate l' n1 in
                 (k' :: l'', n2)
             end) cs (S next) in
        (mkObj next (oid c) (otype c) (ovalue c) (Some cs'), next')
    | None => (c, next)
    end.

Fixpoint recursiveUpdate (lst : list Obj) (next : addr) : list Obj * addr :=
  match lst with
  | [] => ([], next)
  | k :: l' =>
      let '(k', n1) := recursiveUpdate_obj k next in
      let '(l'', n2) := recursiveUpdate l' n1 in
      (k' :: l'', n2)
  end.
End RecursiveUpdate.

(** The specification's [update], on addressed nodes. *)
Definition update (program : list Obj) (next : addr) (commandId : string)
    (newValue : Z) : list Obj :=
  fst (recursiveUpdate commandId newValue program next).

(** Identifiers below a node, the node included. *)
Fixpoint oids_obj (c : Obj) : list string :=
  oid c ::
  match ochildren c with
  | Some cs => flat_map oids_obj cs
  | None => []
  end.

Definition oids (program : list Obj) : list string := flat_map oids_obj program.

(** A node is on the path from the root to the node named [uid] when it is
    that node or one of its ancestors. *)
Definition onPath (uid : string) (c : Obj) : bool :=
  existsb (String.eqb uid) (oids_obj c).

(** Every object of the tree was allocated below [next]. *)
Fixpoint allocated_obj (next : addr) (c : Obj) : bool :=
  Nat.ltb (ref c) next &&
  match ochildren c with
  | Some cs => forallb (allocated_obj next) cs
  | None => true
  end.

Definition allocated (next : addr) (program : list Obj) : bool :=
  forallb (allocated_obj next) program.

(** The node at a position: [i :: q] is the [i]-th element of the list and
    then position [q] among its children. *)
Fixpoint nodeAt (lst : list Obj) (p : list nat) : option Obj :=
  match p with
  | [] => None
  | i :: q =>
      match nth_error lst i with
      | None => None
      | Some c =>
          match q with
          | [] => Some c
          | _ :: _ =>
              match ochildren c with
              | Some cs => nodeAt cs q
              | None => None
              end
          end
      end
  end.

(** A position lies below an updated node when one of its proper
    ancestors is named [uid]. *)
Fixpoint belowUpdated (uid : string) (lst : list Obj) (p : list nat) : bool :=
  match p with
  | [] => false
  | i :: q =>
      match nth_error lst i with
      | None => false
      | Some c =>
          match q with
          | [] => false
          | _ :: _ =>
              if String.eqb (oid c) uid then true
              else
                match ochildren c with
                | Some cs => belowUpdated uid cs q
                | None => false
                end
          end
      end
  end.

(** A node is shared by an update when it has no children list and is not
    named [uid], or when it lies below the updated node. *)
Definition kept (uid : string) (lst : list Obj) (p : list nat) (n : Obj) : bool :=
  belowUpdated uid lst p ||
  (negb (String.eqb (oid n) uid) &&
   match ochildren n with None => true | Some _ => false end).

(* ===================================================================== *)
(** * Application state and the execution engine (App.tsx) *)
(* ===================================================================== *)

(** The state of the [App] component: its [useState] cells and [stopRef].
    Two fields record what the engine has done: [timers] counts the
    [setTimeout] waits that have elapsed, and [poseUpdates] lists the
    values passed to [setRobotState], oldest first. *)
Record World : Type := mkWorld {
  commands : list Command;
  activeContainerId : option string;
  robotState : RobotState;
  path : list Point;
  isPlaying : bool;
  stopRef : bool;
  timers : nat;
  poseUpdates : list RobotState
}.

Definition setRobotState (r : RobotState) (w : World) : World :=
  mkWorld (commands w) (activeContainerId w) r (path w) (isPlaying w)
          (stopRef w) (timers w) (poseUpdates w ++ [r]).

Definition setPath (f : list Point -> list Point) (w : World) : World :=
  mkWorld (commands w) (activeContainerId w) (robotState w) (f (path w))
          (isPlaying w) (stopRef w) (timers w) (poseUpdates w).

Definition setIsPlaying (b : bool) (w : World) : World :=
  mkWorld (commands w) (activeContainerId w) (robotState w) (path w) b
          (stopRef w) (timers w) (poseUpdates w).

Definition setStopRef (b : bool) (w : World) : World :=
  mkWorld (commands w) (activeContainerId w) (robotState w) (path w)
          (isPlaying w) b (timers w) (poseUpdates w).

Definition setCommands (f : list Command -> list Command) (w : World) : World :=
  mkWorld (f (commands w)) (activeContainerId w) (robotState w) (path w)
          (isPlaying w) (stopRef w) (timers w) (poseUpdates w).

Definition setActiveContainerId (c : option string) (w : World) : World :=
  mkWorld (commands w) c (robotState w) (path w) (isPlaying w) (stopRef w)
          (timers w) (poseUpdates w).

Definition tick (w : World) : World :=
  mkWorld (commands w) (activeContainerId w) (robotState w) (path w)
          (isPlaying w) (stopRef w) (S (timers w)) (poseUpdates w).

(** ** Actions *)

Definition handleAddCommand (uuid : string) (t : CommandType) (w : World) : World :=
  setCommands
    (fun prev => updateTree prev (activeContainerId w)
                   (fun list => (list ++ [newCmd uuid t])%list)) w.

Definition handleRemoveCommand (rid : string) (w : World) : World :=
  setCommands (fun prev => recursiveFilter rid prev) w.

Definition handleUpdateCommand (uid : string) (v : Z) (w : World) : World :=
  setCommands (fun prev => map (recursiveUpdate_cmd uid v) prev) w.

Definition resetPosition (w : World) : World :=
  setPath (fun _ => [origin]) (setRobotState initialState w).

Definition handleClearAll (w : World) : World :=
  setIsPlaying false
    (setActiveContainerId None
       (setRobotState initialState
          (setPath (fun _ => [origin]) (setCommands (fun _ => []) w)))).

Definition handleStop (w : World) : World :=
  setIsPlaying false (setStopRef true w).

(** ** Asynchronous code

    An [async] function is a state transformer over [World] that also
    yields a result.  Other handlers can only run while the function is
    suspended in a [setTimeout] wait; during a run the view offers the
    Stop control, so the environment of a run is a schedule
    [stopDuring : nat -> bool] telling, for each wait in the order they
    occur, whether [handleStop] fires while it lasts. *)

Definition Async (A : Type) : Type := World -> A * World.

Definition ret {A} (a : A) : Async A := fun w => (a, w).

Definition bind {A B} (m : Async A) (k : A -> Async B) : Async B :=
  fun w => let '(a, w') := m w in k a w'.

Definition get {A} (f : World -> A) : Async A := fun w => (f w, w).

Definition modify (f : World -> World) : Async unit := fun w => (tt, f w).

Declare Scope async_scope.
Delimit Scope async_scope with async.
Notation "x <- m ;; k" := (bind m (fun x => k))
  (at level 100, m at next level, right associativity) : async_scope.
Notation "m ;; k" := (bind m (fun _ => k))
  (at level 100, right associativity) : async_scope.

(** Helper to convert degrees to radians. *)
Definition toRad (deg : R) : R := (deg * PI / 180)%R.

Section Engine.
Variable stopDuring : nat -> bool.

Local Open Scope async_scope.

(** [await new Promise(resolve => setTimeout(resolve, ms))] *)
Definition sleep : Async unit :=
  modify (fun w =>
            let w' := tick w in
            if stopDuring (timers w) then handleStop w' else w').

(** The body of the [for] loop of the [REPEAT] case: at most [n] rounds
    of [body], leaving the loop once the flag is set. *)
Fixpoint repeatLoop (n : nat) (body : RobotState -> Async RobotState)
    (nextRobot : RobotState) : Async RobotState :=
  match n with
  | O => ret nextRobot
  | S n' =>
      nextRobot' <- body nextRobot ;;
      stopped <- get stopRef ;;
      if stopped : bool then ret nextRobot'
      else repeatLoop n' body nextRobot'
  end.

Fixpoint executeCommand (cmd : Command) (currentRobot : RobotState)
    {struct cmd} : Async RobotState :=
  stopped <- get stopRef ;;
  if stopped : bool then ret currentRobot else
  sleep ;;
  let nextRobot := currentRobot in
  match type cmd with
  | FORWARD | BACKWARD =>
      let distance := (IZR (value cmd) * IZR GRID_SIZE)%R in
      let direction :=
        match type cmd with FORWARD => 1%R | _ => (-1)%R end in
      let dx := (cos (toRad (angle nextRobot)) * distance * direction)%R in
      let dy := (sin (toRad (angle nextRobot)) * distance * direction)%R in
      let nextRobot :=
        mkRobot (x nextRobot + dx) (y nextRobot + dy)
                (angle nextRobot) (penDown nextRobot) in
      modify (setRobotState nextRobot) ;;
      modify (setPath (fun prev =>
                prev ++ [mkPoint (x nextRobot) (y nextRobot)])) ;;
      ret nextRobot
  | TURN_LEFT | TURN_RIGHT =>
      let turn := match type cmd with TURN_RIGHT => 1%R | _ => (-1)%R end in
      let nextRobot :=
        mkRobot (x nextRobot) (y nextRobot)
                (angle nextRobot + IZR (value cmd) * turn)
                (penDown nextRobot) in
      modify (setRobotState nextRobot) ;;
      ret nextRobot
  | REPEAT =>
      match children cmd with
      | Some cs =>
          repeatLoop (Z.to_nat (value cmd))
            ((fix runSeq (sequence : list Command) (currentState : RobotState)
               : Async RobotState :=
               match sequence with
               | [] => ret currentState
               | c :: rest =>
                   stopped <- get stopRef ;;
                   if stopped : bool then ret currentState
                   else
                     currentState' <- executeCommand c currentState ;;
                     runSeq rest currentState'
               end) cs)
            nextRobot
      | None => ret nextRobot
      end
  end.

Fixpoint runSequence (sequence : list Command) (startState : RobotState)
    : Async RobotState :=
  match sequence with
  | [] => ret startState
  | cmd :: rest =>
      stopped <- get stopRef ;;
      if stopped : bool then ret startState
      else
        currentState <- executeCommand cmd startState ;;
        runSequence rest currentState
  end.

Definition handleRun : Async unit :=
  cmds <- get commands ;;
  if Nat.eqb (length cmds) 0 then ret tt else
  modify (setIsPlaying true) ;;
  modify (setStopRef false) ;;
  modify resetPosition ;;
  sleep ;;
  runSequence cmds initialState ;;
  modify (setIsPlaying false).

End Engine.

(** The schedule of a run that is never stopped. *)
Definition neverStopped : nat -> bool := fun _ => false.

(** ** The run control of the view

    [{!isPlaying ? <button onClick={handleRun} disabled={commands.length === 0}>
               : <button onClick={handleStop}>}] *)
Inductive Control : Set :=
  | RunButton (disabled : bool)
  | StopButton.

Definition headerControl (w : World) : Control :=
  if negb (isPlaying w) then RunButton (Nat.eqb (length (commands w)) 0)
  else StopButton.

Definition clickHeaderControl (stopDuring : nat -> bool) (w : World) : World :=
  match headerControl w with
  | RunButton true => w
  | RunButton false => snd (handleRun stopDuring w)
  | StopButton => handleStop w
  end.

(** ** Counting what a full run executes *)

Definition total (l : list nat) : nat := fold_right Nat.add 0%nat l.

(** Movement leaves executed by an uninterrupted run of a command. *)
Fixpoint moveCount (c : Command) : nat :=
  match type c with
  | FORWARD | BACKWARD => 1
  | TURN_LEFT | TURN_RIGHT => 0
  | REPEAT =>
      match children c with
      | Some cs => Z.to_nat (value c) * total (map moveCount cs)
      | None => 0
      end
  end.

(** Leaves (movements and turns) executed by an uninterrupted run. *)
Fixpoint leafCount (c : Command) : nat :=
  match type c with
  | REPEAT =>
      match children c with
      | Some cs => Z.to_nat (value c) * total (map leafCount cs)
      | None => 0
      end
  | _ => 1
  end.

(** [n] rounds of [body], one after the other. *)
Fixpoint rounds (n : nat) (body : RobotState -> Async RobotState)
    (r : RobotState) : Async RobotState :=
  match n with
  | O => ret r
  | S n' => bind (body r) (rounds n' body)
  end.

Definition strictPrefix {A} (l1 l2 : list A) : Prop :=
  l1 `prefix_of` l2 /\ l1 <> l2.

(** The poses computed by the [FORWARD]/[BACKWARD] case and by the
    [TURN_LEFT]/[TURN_RIGHT] case of [executeCommand]. *)
Definition moved (cmd : Command) (r : RobotState) : RobotState :=
  let distance := (IZR (value cmd) * IZR GRID_SIZE)%R in
  let direction := match type cmd with FORWARD => 1%R | _ => (-1)%R end in
  mkRobot (x r + cos (toRad (angle r)) * distance * direction)
          (y r + sin (toRad (angle r)) * distance * direction)
          (angle r) (penDown r).

Definition turned (cmd : Command) (r : RobotState) : RobotState :=
  let turn := match type cmd with TURN_RIGHT => 1%R | _ => (-1)%R end in
  mkRobot (x r) (y r) (angle r + IZR (value cmd) * turn) (penDown r).

(** The recorded path and the pose updates of [w'] extend those of [w]. *)
Definition grows (w w' : World) : Prop :=
  path w `prefix_of` path w' /\ poseUpdates w `prefix_of` poseUpdates w'.

(** How an interrupted run relates to the uninterrupted one: either they
    are still in the same state and running, or the first has been stopped
    and its path is an initial part of the other's. *)
Definition behind (p1 p2 : RobotState * World) : Prop :=
  (p1 = p2 /\ stopRef (snd p1) = false) \/
  (stopRef (snd p1) = true /\ path (snd p1) `prefix_of` path (snd p2)).

(** What a command leaves behind when the flag stays clear: the flag is
    still clear, and the path and the pose updates have grown by the
    numbers of movements and of leaves. *)
Definition ranFully (moves leaves : nat) (w w' : World) : Prop :=
  stopRef w' = false /\
  length (path w') = (length (path w) + moves)%nat /\
  length (poseUpdates w') = (length (poseUpdates w) + leaves)%nat.

(** ** The traversal in the specification's words

    The specification describes the engine by expansion: a [REPEAT] with
    count [n] stands for its child sequence taken [n] times, children
    expanded the same way, and each leaf is applied to the pose in turn. *)
Fixpoint expand (c : Command) : list Command :=
  match type c with
  | REPEAT =>
      match children c with
      | Some cs => concat (repeat (flat_map expand cs) (Z.to_nat (value c)))
      | None => []
      end
  | _ => [c]
  end.

(** What a run lets the outside see: the pose reached, the path, and the
    poses published so far. *)
Definition Observed : Type := RobotState * list Point * list RobotState.

Definition observed (res : RobotState * World) : Observed :=
  (fst res, path (snd res), poseUpdates (snd res)).

(** One leaf applied to what has been observed: a movement publishes the
    new pose and appends its position, a turn publishes the new pose. *)
Definition applyLeaf (o : Observed) (c : Command) : Observed :=
  let '(r, pth, poses) := o in
  match type c with
  | FORWARD | BACKWARD =>
      (moved c r, pth ++ [mkPoint (x (moved c r)) (y (moved c r))],
       poses ++ [moved c r])
  | TURN_LEFT | TURN_RIGHT => (turned c r, pth, poses ++ [turned c r])
  | REPEAT => o
  end.

Definition applyLeaves (leaves : list Command) (o : Observed) : Observed :=
  fold_left applyLeaf leaves o.

(** A run, stopped or not, has applied an initial part of the leaves, each
    once and in order; when the flag is still clear it has applied all. *)
Definition ranPrefix (leaves : list Command) (start : Observed)
    (res : RobotState * World) : Prop :=
  (exists k, observed res = applyLeaves (firstn k leaves) start) /\
  (stopRef (snd res) = false -> observed res = applyLeaves leaves start).

(* ===================================================================== *)
(** * Sample data *)
(* ===================================================================== *)

Local Open Scope string_scope.

Definition forward (i : string) (v : Z) : Command := mkCommand i FORWARD v None.
Definition turnRight (i : string) (v : Z) : Command := mkCommand i TURN_RIGHT v None.
Definition repeatOf (i : string) (v : Z) (cs : list Command) : Command :=
  mkCommand i REPEAT v (Some cs).

Definition sampleProgram : list Command :=
  [forward "a" 2; repeatOf "b" 3 [turnRight "c" 90]].

(** The state of the application before anything has run. *)
Definition idle (cmds : list Command) : World :=
  mkWorld cmds None initialState [origin] false false 0%nat [].

(** A heap with a [REPEAT] holding one turn, followed by a move. *)
Definition heapLeaf : Obj := mkObj 0%nat "c" TURN_RIGHT 90 None.
Definition heapRepeat : Obj := mkObj 1%nat "a" REPEAT 2 (Some [heapLeaf]).
Definition heapMove : Obj := mkObj 2%nat "b" FORWARD 1 None.
Definition sampleHeap : list Obj := [heapRepeat; heapMove].

(** Stop is pressed during the wait of the first command of a run (the
    wait numbered 0 is the start delay of [handleRun]). *)
Definition stopAtFirstCommand : nat -> bool := fun k => Nat.eqb k 1.

Local Close Scope string_scope.

(* ===================================================================== *)
(** * The view: what is shown and what can be pressed *)
(* ===================================================================== *)

(** All nodes of a tree, in depth-first order. *)
Fixpoint nodes_cmd (c : Command) : list Command :=
  c ::
  match children c with
  | Some cs => flat_map nodes_cmd cs
  | None => []
  end.

Definition nodes (program : list Command) : list Command :=
  flat_map nodes_cmd program.

(** The identifiers strictly below a node. *)
Definition idsBelow (c : Command) : list string :=
  match children c with
  | Some cs => ids cs
  | None => []
  end.

(** A tree with every [value] set to zero: identifiers, kinds and the
    nesting of the children lists are what is left. *)
Fixpoint skeleton (c : Command) : Command :=
  mkCommand (id c) (type c) 0
    (match children c with
     | Some cs => Some (map skeleton cs)
     | None => None
     end).

(** The state updater of [handleUpdateCommand] on a program. *)
Definition updateValue (program : list Command) (uid : string) (v : Z)
    : list Command :=
  map (recursiveUpdate_cmd uid v) program.

(** [getVisibleCommands]: [!activeContainerId] holds for [null] and for
    the empty string; a container without a children list shows as
    empty, and so does an identifier that is not found. *)
Definition getVisibleCommands (w : World) : list Command :=
  match activeContainerId w with
  | None => commands w
  | Some a =>
      if String.eqb a "" then commands w
      else
        match findById (commands w) a with
        | Some container => default [] (children container)
        | None => []
        end
  end.

(** The events the view can raise, with the handler each is wired to:
    the palette buttons ([onAddCommand]), the blocks of the timeline
    ([onRemove], [onUpdate], and [onEnterNested] on [REPEAT] blocks), the
    back button ([onGoBack]), and the header ([handleRun] or [handleStop],
    and [handleClearAll]).  [uuid] is the identifier [uuidv4()] returns
    and [v] the integer [parseInt(..) || 0] yields. *)
Inductive Event : Type :=
  | AddCommand (uuid : string) (t : CommandType)
  | RemoveCommand (rid : string)
  | UpdateCommand (uid : string) (v : Z)
  | EnterNested (cid : string)
  | GoBack
  | ClearAll
  | HeaderControl (stopDuring : nat -> bool).

Definition dispatch (e : Event) (w : World) : World :=
  match e with
  | AddCommand uuid t => handleAddCommand uuid t w
  | RemoveCommand rid => handleRemoveCommand rid w
  | UpdateCommand uid v => handleUpdateCommand uid v w
  | EnterNested cid => setActiveContainerId (Some cid) w
  | GoBack => setActiveContainerId None w
  | ClearAll => handleClearAll w
  | HeaderControl sd => clickHeaderControl sd w
  end.

(** When the view can raise an event.  The timeline only holds blocks for
    the visible commands, and the button that enters a block only exists
    on [REPEAT] blocks.  A new identifier is taken to be non-empty and
    different from those in use.  (The palette and the clear button are
    moreover disabled while [isPlaying] is set; leaving that out only
    allows more.) *)
Definition offered (e : Event) (w : World) : Prop :=
  match e with
  | AddCommand uuid _ => uuid <> ""%string /\ ~ In uuid (ids (commands w))
  | RemoveCommand rid => exists c, In c (getVisibleCommands w) /\ id c = rid
  | UpdateCommand uid _ => exists c, In c (getVisibleCommands w) /\ id c = uid
  | EnterNested cid =>
      exists c, In c (getVisibleCommands w) /\ id c = cid /\ type c = REPEAT
  | GoBack | ClearAll | HeaderControl _ => True
  end.

(** The states the application goes through, from its initial state. *)
Inductive reachable : World -> Prop :=
  | reachable_init : reachable (mkWorld [] None initialState [origin]
                                        false false 0%nat [])
  | reachable_step e w :
      reachable w -> offered e w -> reachable (dispatch e w).

(** What every reachable state satisfies: identifiers are non-empty and
    pairwise different, only [REPEAT] nodes carry children, and the active
    container is [null] or names a [REPEAT] node of the program. *)
Definition treeInvariant (w : World) : Prop :=
  NoDup (ids (commands w)) /\
  ~ In ""%string (ids (commands w)) /\
  onlyRepeatHasChildren (commands w) = true /\
  match activeContainerId w with
  | None => True
  | Some cid => resolvesToRepeat (commands w) cid = true
  end.

(** ** More counts for a full run *)

(** Timer waits of an uninterrupted run of a command: one for the command
    itself, [REPEAT] included, and those of its children in every round. *)
Fixpoint waitCount (c : Command) : nat :=
  match type c with
  | REPEAT =>
      match children c with
      | Some cs => S (Z.to_nat (value c) * total (map waitCount cs))
      | None => 1
      end
  | _ => 1
  end.

(** The net turn of an uninterrupted run of a command, in degrees, right
    turns counted positive. *)
Fixpoint netTurn (c : Command) : Z :=
  match type c with
  | TURN_RIGHT => value c
  | TURN_LEFT => - value c
  | FORWARD | BACKWARD => 0
  | REPEAT =>
      match children c with
      | Some cs =>
          Z.of_nat (Z.to_nat (value c)) *
          fold_right Z.add 0 (map netTurn cs)
      | None => 0
      end
  end.

Definition netTurns (program : list Command) : Z :=
  fold_right Z.add 0 (map netTurn program).

(** Stop is not pressed during the waits numbered [a] up to [b - 1]. *)
Definition quiet (sd : nat -> bool) (a b : nat) : Prop :=
  forall j, (a <= j < b)%nat -> sd j = false.

(** How far a part of a run gets, from [w] to [w']: if the flag is clear
    afterwards, Stop was not pressed during any of its waits; if the flag
    is set, the last wait is the first during which Stop was pressed. *)
Definition endsAtStop (sd : nat -> bool) (w w' : World) : Prop :=
  (timers w <= timers w')%nat /\
  if stopRef w'
  then exists k, timers w' = S k /\ (timers w <= k)%nat /\ sd k = true /\
                 quiet sd (timers w) k
  else quiet sd (timers w) (timers w').

(** What the engine leaves alone, and what it keeps in step: the program,
    the active container and the pen; the published pose is the pose the
    engine holds. *)
Definition inStep (r : RobotState) (w : World) (res : RobotState * World)
    : Prop :=
  commands (snd res) = commands w /\
  activeContainerId (snd res) = activeContainerId w /\
  penDown (fst res) = penDown r /\
  (robotState w = r -> robotState (snd res) = fst res).

(** ** The information overlay of the board (GridBoard.tsx) *)

(** [Math.round] on real numbers: the nearest integer, halves upwards. *)
Definition Math_round (a : R) : Z := Int_part (a + / 2).

(** [Math.round((robotState.x - CANVAS_WIDTH/2) / GRID_SIZE)] *)
Definition overlayX (r : RobotState) : Z :=
  Math_round ((x r - IZR CANVAS_WIDTH / 2) / IZR GRID_SIZE).

(** [Math.round(-(robotState.y - CANVAS_HEIGHT/2) / GRID_SIZE)] *)
Definition overlayY (r : RobotState) : Z :=
  Math_round (- (y r - IZR CANVAS_HEIGHT / 2) / IZR GRID_SIZE).

(** [Math.round(robotState.angle + 90) % 360]; the remainder of
    JavaScript has the sign of the dividend. *)
Definition overlayAngle (r : RobotState) : Z :=
  Z.rem (Math_round (angle r + 90)) 360.

(** ** The language the application starts in (App.tsx) *)

Definition supportedLanguages : list string :=
  ["ca"; "es"; "gl"; "eu"; "en"]%string.

(** [s.split('-')[0]]: what precedes the first hyphen. *)
Fixpoint beforeHyphen (s : string) : string :=
  match s with
  | EmptyString => EmptyString
  | String c s' =>
      if Ascii.eqb c "-"%char then EmptyString else String c (beforeHyphen s')
  end.

(** The initial value of [language], from [navigator.language]. *)
Definition initialLanguage (navigatorLanguage : string) : string :=
  let navLang := beforeHyphen navigatorLanguage in
  if existsb (String.eqb navLang) supportedLanguages then navLang
  else "ca"%string.

(* ===================================================================== *)
(** * The event loop: calls that are pending *)
(* ===================================================================== *)

(** The functions above follow one run from its start to its end.  To
    speak about what happens while a run is in progress, the part of an
    [async] call that is still to come is kept as data.  A call is only
    ever suspended in one of its two [setTimeout] waits; what it will do
    when the timer fires is given by the place of the wait and by the
    callers that wait for its result in an [await]:
    - [InSequence rest]: [runSequence], at
      [currentState = await executeCommand(cmd, currentState)], with [rest]
      the commands the [for] loop has still to take;
    - [InRepeat more cs]: the [for] loop of the [REPEAT] case, at
      [nextRobot = await runSequence(cmd.children, nextRobot)], with [more]
      rounds to come after the current one;
    - [InHandleRun]: [handleRun], at [await runSequence(..)]. *)
Inductive Frame : Type :=
  | InSequence (rest : list Command)
  | InRepeat (more : nat) (cs : list Command)
  | InHandleRun.

(** A suspended call: [handleRun] in its start delay, with the program it
    closed over, or [executeCommand] in its animation delay, with its
    arguments and the callers waiting for it, innermost first. *)
Inductive Task : Type :=
  | StartDelay (cmds : list Command)
  | AnimationDelay (cmd : Command) (currentRobot : RobotState)
                   (stack : list Frame).

(** [runSequence] from the top of its loop: it leaves the loop at once
    when the flag is set, the command it enters returns at once when the
    flag is set, and otherwise the command is suspended in its wait.
    [ret] is what handing [currentState] back to the callers gives. *)
Fixpoint enterSequence (sequence : list Command) (currentState : RobotState)
    (stack : list Frame) (ret : World * option Task) (w : World)
    : World * option Task :=
  match sequence with
  | [] => ret
  | cmd :: rest =>
      if stopRef w then ret
      else if stopRef w then enterSequence rest currentState stack ret w
      else (w, Some (AnimationDelay cmd currentState (InSequence rest :: stack)))
  end.

(** A result handed back to the callers: each goes on from its [await]
    until a command is suspended or the outermost call is over. *)
Fixpoint returnTo (stack : list Frame) (r : RobotState) (w : World)
    : World * option Task :=
  match stack with
  | [] => (w, None)
  | InSequence rest :: callers =>
      enterSequence rest r callers (returnTo callers r w) w
  | InRepeat more cs :: callers =>
      (fix nextRound (more : nat) : World * option Task :=
         if stopRef w then returnTo callers r w     (* break *)
         else
           match more with
           | O => returnTo callers r w
           | S more' =>
               enterSequence cs r (InRepeat more' cs :: callers)
                 (nextRound more') w
           end) more
  | InHandleRun :: _ => (setIsPlaying false w, None)
  end.

(** [executeCommand] after its wait. *)
Definition afterAnimationDelay (cmd : Command) (currentRobot : RobotState)
    (stack : list Frame) (w : World) : World * option Task :=
  let nextRobot := currentRobot in
  match type cmd with
  | FORWARD | BACKWARD =>
      let nextRobot := moved cmd nextRobot in
      returnTo stack nextRobot
        (setPath (fun prev => prev ++ [mkPoint (x nextRobot) (y nextRobot)])
           (setRobotState nextRobot w))
  | TURN_LEFT | TURN_RIGHT =>
      let nextRobot := turned cmd nextRobot in
      returnTo stack nextRobot (setRobotState nextRobot w)
  | REPEAT =>
      match children cmd with
      | Some cs =>
          match Z.to_nat (value cmd) with
          | O => returnTo stack nextRobot w
          | S more =>
              enterSequence cs nextRobot (InRepeat more cs :: stack)
                (returnTo (InRepeat more cs :: stack) nextRobot w) w
          end
      | None => returnTo stack nextRobot w
      end
  end.

(** A suspended call resumed when its timer has fired. *)
Definition resume (t : Task) (w : World) : World * option Task :=
  match t with
  | StartDelay cmds =>
      enterSequence cmds initialState [InHandleRun]
        (returnTo [InHandleRun] initialState w) w
  | AnimationDelay cmd currentRobot stack =>
      afterAnimationDelay cmd currentRobot stack w
  end.

(** The application with its pending calls.  Both waits last 500 ms, so
    the timers fire in the order in which they were set: [pending] is a
    queue, its head the call whose timer fires next. *)
Record Machine : Type := mkMachine {
  world : World;
  pending : list Task
}.

Definition queued (o : option Task) : list Task :=
  match o with
  | Some t => [t]
  | None => []
  end.

(** The next timer fires: the call at the head of the queue goes on until
    it is suspended again, at the back of the queue, or is over. *)
Definition fire (m : Machine) : Machine :=
  match pending m with
  | [] => m
  | t :: others =>
      let '(w', next) := resume t (tick (world m)) in
      mkMachine w' (others ++ queued next)
  end.

(** [handleRun] up to its first [await]; the rest of the call is pending. *)
Definition startRun (m : Machine) : Machine :=
  if Nat.eqb (length (commands (world m))) 0 then m
  else
    mkMachine (resetPosition (setStopRef false (setIsPlaying true (world m))))
              (pending m ++ [StartDelay (commands (world m))]).

(** The control of the header is pressed: Run or Stop, as the view shows. *)
Definition pressHeaderControl (m : Machine) : Machine :=
  match headerControl (world m) with
  | RunButton true => m
  | RunButton false => startRun m
  | StopButton => mkMachine (handleStop (world m)) (pending m)
  end.

(** One run on its own: timers fire until nothing is pending, and Stop
    is pressed during the waits the schedule tells.  [fuel] bounds the
    number of timers. *)
Fixpoint drive (stopDuring : nat -> bool) (fuel : nat) (m : Machine)
    : option World :=
  match pending m with
  | [] => Some (world m)
  | _ :: _ =>
      match fuel with
      | O => None
      | S fuel' =>
          drive stopDuring fuel'
            (fire (if stopDuring (timers (world m))
                   then mkMachine (handleStop (world m)) (pending m)
                   else m))
      end
  end.

(** What handing a result back to waiting callers comes to in the end, by
    the functions that follow a run to its end. *)
Fixpoint finish (stopDuring : nat -> bool) (stack : list Frame)
    (res : RobotState * World) : World :=
  match stack with
  | [] => snd res
  | InSequence rest :: callers =>
      finish stopDuring callers
        (runSequence stopDuring rest (fst res) (snd res))
  | InRepeat more cs :: callers =>
      finish stopDuring callers
        (if stopRef (snd res) then res
         else repeatLoop more (runSequence stopDuring cs) (fst res) (snd res))
  | InHandleRun :: _ => setIsPlaying false (snd res)
  end.

(** A result of a resumed call as the state of the application: one run,
    suspended or over. *)
Definition machineOf (o : World * option Task) : Machine :=
  mkMachine (fst o) (queued (snd o)).

(** The callers on a stack are served: handing them a result and letting
    the timers fire ends in the state [finish] tells. *)
Definition served (sd : nat -> bool) (stack : list Frame) : Prop :=
  forall r w, exists fuel,
    drive sd fuel (machineOf (returnTo stack r w)) =
    Some (finish sd stack (r, w)).

(** A command is carried out: suspended in its wait with served callers,
    it ends in the state [executeCommand] and [finish] tell. *)
Definition carriedOut (sd : nat -> bool) (cmd : Command) : Prop :=
  forall stack, served sd stack ->
  forall currentRobot w, stopRef w = false ->
  exists fuel,
    drive sd fuel (mkMachine w [AnimationDelay cmd currentRobot stack]) =
    Some (finish sd stack (executeCommand sd cmd currentRobot w)).
(* ===================================================================== *)
(** * Properties of the tree edits *)
(* ===================================================================== *)

Section TreeEditFacts.

(** The source shape of [updateTree] for a non-null parent. *)
Lemma updateTree_eq cmds pid updateFn :
  updateTree cmds (Some pid) updateFn =
  map (fun cmd =>
         if String.eqb (id cmd) pid then
           withChildren cmd (Some (updateFn (default [] (children cmd))))
         else
           match children cmd with
           | Some cs =>
               withChildren cmd (Some (updateTree cs (Some pid) updateFn))
           | None => cmd
           end) cmds.
Proof.
  unfold updateTree. apply map_ext. intros [i t v [cs|]]; reflexivity.
Qed.

Lemma recursiveFilter_cmd_eq rid c :
  recursiveFilter_cmd rid c =
  withChildren c (option_map (recursiveFilter rid) (children c)).
Proof.
  destruct c as [i t v [cs|]]; simpl; [|reflexivity].
  do 2 f_equal. induction cs as [|k cs IH]; simpl; [reflexivity|].
  rewrite IH. reflexivity.
Qed.

(** The source shape of [recursiveFilter]: a filter, then a map. *)
Lemma recursiveFilter_eq rid lst :
  recursiveFilter rid lst =
  map (fun c => withChildren c (option_map (recursiveFilter rid) (children c)))
      (List.filter (fun c => negb (String.eqb (id c) rid)) lst).
Proof.
  induction lst as [|k l IH]; simpl; [reflexivity|].
  destruct (negb (String.eqb (id k) rid)); simpl; rewrite IH; [|reflexivity].
  rewrite recursiveFilter_cmd_eq. reflexivity.
Qed.

Lemma findById_cmd_eq fid c :
  findById_cmd fid c =
  if String.eqb (id c) fid then Some c
  else match children c with
       | Some cs => findById cs fid
       | None => None
       end.
Proof.
  destruct c as [i t v [cs|]]; simpl; [|reflexivity].
  destruct (String.eqb i fid); [reflexivity|].
  induction cs as [|k cs IH]; simpl; [reflexivity|].
  rewrite IH. reflexivity.
Qed.

Lemma withChildren_same c : withChildren c (children c) = c.
Proof. destruct c; reflexivity. Qed.

Lemma in_ids_cons rid c l :
  In rid (ids (c :: l)) <-> In rid (ids_cmd c) \/ In rid (ids l).
Proof. unfold ids. simpl. apply in_app_iff. Qed.

Lemma in_ids_cmd rid c :
  In rid (ids_cmd c) <->
  id c = rid \/ match children c with
                | Some cs => In rid (ids cs)
                | None => False
                end.
Proof. destruct c as [i t v [cs|]]; simpl; reflexivity. Qed.

(** An identifier that occurs nowhere is not found, and conversely. *)
Lemma findById_None_step fid lst :
  Forall (fun k => findById_cmd fid k = None <-> ~ In fid (ids_cmd k)) lst ->
  findById lst fid = None <-> ~ In fid (ids lst).
Proof.
  induction 1 as [|k l Hk _ IHl].
  - unfold ids; simpl. tauto.
  - rewrite in_ids_cons. simpl. destruct (findById_cmd fid k).
    + split; [discriminate|]. intros Hn.
      assert (Hk' : ~ In fid (ids_cmd k)) by tauto.
      apply Hk in Hk'. discriminate.
    + assert (~ In fid (ids_cmd k)) by (apply Hk; reflexivity). tauto.
Qed.

Lemma findById_cmd_None fid c :
  findById_cmd fid c = None <-> ~ In fid (ids_cmd c).
Proof.
  induction c as [i t v | i t v cs IH] using Command_tree_ind;
    rewrite findById_cmd_eq, in_ids_cmd; simpl;
    destruct (String.eqb_spec i fid) as [->|Hne]; try (intuition congruence).
  rewrite (findById_None_step fid cs IH). tauto.
Qed.

Lemma findById_None lst fid :
  findById lst fid = None <-> ~ In fid (ids lst).
Proof.
  apply findById_None_step, Forall_forall. intros k _.
  apply findById_cmd_None.
Qed.

(** Without a node named [pid], [updateTree] rebuilds an equal tree. *)
Lemma updateTree_absent_step pid updateFn cmds :
  Forall (fun k => ~ In pid (ids_cmd k) -> updateTree_cmd pid updateFn k = k)
         cmds ->
  ~ In pid (ids cmds) -> map (updateTree_cmd pid updateFn) cmds = cmds.
Proof.
  induction 1 as [|k l Hk _ IHl]; [reflexivity|].
  rewrite in_ids_cons. intros Hn. simpl.
  rewrite Hk, IHl by tauto. reflexivity.
Qed.

Lemma updateTree_cmd_absent pid updateFn c :
  ~ In pid (ids_cmd c) -> updateTree_cmd pid updateFn c = c.
Proof.
  induction c as [i t v | i t v cs IH] using Command_tree_ind;
    rewrite in_ids_cmd; simpl; intros Hn;
    destruct (String.eqb_spec i pid) as [->|Hne]; try tauto.
  unfold withChildren; simpl.
  rewrite (updateTree_absent_step pid updateFn cs IH) by tauto.
  reflexivity.
Qed.

Lemma updateTree_absent pid updateFn cmds :
  ~ In pid (ids cmds) -> updateTree cmds (Some pid) updateFn = cmds.
Proof.
  apply updateTree_absent_step, Forall_forall. intros k _.
  apply updateTree_cmd_absent.
Qed.

(** Without a node named [rid], [recursiveFilter] rebuilds an equal tree. *)
Lemma recursiveFilter_absent_step rid lst :
  Forall (fun k => ~ In rid (ids_cmd k) -> recursiveFilter_cmd rid k = k) lst ->
  ~ In rid (ids lst) -> recursiveFilter rid lst = lst.
Proof.
  induction 1 as [|k l Hk _ IHl]; [reflexivity|].
  rewrite in_ids_cons, in_ids_cmd. intros Hn. simpl.
  destruct (String.eqb_spec (id k) rid) as [E|Hne]; simpl; [tauto|].
  rewrite Hk, IHl; [reflexivity | tauto | rewrite in_ids_cmd; tauto].
Qed.

Lemma recursiveFilter_cmd_absent rid c :
  ~ In rid (ids_cmd c) -> recursiveFilter_cmd rid c = c.
Proof.
  induction c as [i t v | i t v cs IH] using Command_tree_ind;
    rewrite recursiveFilter_cmd_eq, in_ids_cmd; simpl; intros Hn;
    [reflexivity|].
  unfold withChildren; simpl.
  rewrite (recursiveFilter_absent_step rid cs IH) by tauto.
  reflexivity.
Qed.

Lemma recursiveFilter_absent rid lst :
  ~ In rid (ids lst) -> recursiveFilter rid lst = lst.
Proof.
  apply recursiveFilter_absent_step, Forall_forall. intros k _.
  apply recursiveFilter_cmd_absent.
Qed.

(** The actions apply the edits to the program held by the state. *)
Lemma handleAddCommand_commands uuid t w :
  commands (handleAddCommand uuid t w) =
  insert (commands w) (activeContainerId w) (newCmd uuid t).
Proof. reflexivity. Qed.

Lemma handleRemoveCommand_commands rid w :
  commands (handleRemoveCommand rid w) = remove (commands w) rid.
Proof. reflexivity. Qed.

End TreeEditFacts.

(* ===================================================================== *)
(** * Properties of [update] on addressed nodes *)
(* ===================================================================== *)

Section UpdateFacts.
Variable uid : string.
Variable v : Z.

(** The source shape of the callback of [list.map]. *)
Lemma recursiveUpdate_obj_eq c next :
  recursiveUpdate_obj uid v c next =
  if String.eqb (oid c) uid then
    (mkObj next (oid c) (otype c) v (ochildren c), S next)
  else
    match ochildren c with
    | Some cs =>
        let '(cs', next') := recursiveUpdate uid v cs (S next) in
        (mkObj next (oid c) (otype c) (ovalue c) (Some cs'), next')
    | None => (c, next)
    end.
Proof. destruct c as [a i t u [cs|]]; reflexivity. Qed.

Lemma recursiveUpdate_cons k l next :
  recursiveUpdate uid v (k :: l) next =
  let '(k', n1) := recursiveUpdate_obj uid v k next in
  let '(l', n2) := recursiveUpdate uid v l n1 in
  (k' :: l', n2).
Proof. reflexivity. Qed.

(** The allocator only moves forward. *)
Lemma recursiveUpdate_next_step lst :
  Forall (fun c => forall n, n <= snd (recursiveUpdate_obj uid v c n))%nat lst ->
  forall n, (n <= snd (recursiveUpdate uid v lst n))%nat.
Proof.
  induction 1 as [|k l Hk _ IHl]; intros n; [reflexivity|].
  rewrite recursiveUpdate_cons. specialize (Hk n).
  destruct (recursiveUpdate_obj uid v k n) as [k' n1]. specialize (IHl n1).
  destruct (recursiveUpdate uid v l n1) as [l' n2]. cbn [snd] in *. lia.
Qed.

Lemma recursiveUpdate_obj_next c : forall n,
  (n <= snd (recursiveUpdate_obj uid v c n))%nat.
Proof.
  induction c as [a i t u | a i t u cs IH] using Obj_tree_ind; intros n;
    rewrite recursiveUpdate_obj_eq; cbn [oid ochildren];
    destruct (String.eqb i uid); cbn [snd]; try lia.
  pose proof (recursiveUpdate_next_step cs IH (S n)) as Hn.
  destruct (recursiveUpdate uid v cs (S n)) as [cs' n']. cbn [snd] in *. lia.
Qed.

Lemma recursiveUpdate_next lst n :
  (n <= snd (recursiveUpdate uid v lst n))%nat.
Proof.
  apply recursiveUpdate_next_step, Forall_forall. intros c _.
  apply recursiveUpdate_obj_next.
Qed.

(** [list.map] works element by element: the [i]-th node of the result
    is the callback's result on the [i]-th node of the input, at some
    later state of the allocator. *)
Lemma recursiveUpdate_nth lst : forall next i c,
  nth_error lst i = Some c ->
  exists n, (next <= n)%nat /\
    nth_error (fst (recursiveUpdate uid v lst next)) i =
    Some (fst (recursiveUpdate_obj uid v c n)).
Proof.
  induction lst as [|k l IH]; intros next i c Hi; [destruct i; discriminate|].
  rewrite recursiveUpdate_cons.
  pose proof (recursiveUpdate_obj_next k next) as Hk.
  destruct i as [|i]; cbn [nth_error] in Hi.
  - injection Hi as ->. exists next. split; [lia|].
    destruct (recursiveUpdate_obj uid v c next) as [k' n1].
    destruct (recursiveUpdate uid v l n1) as [l' n2]. reflexivity.
  - destruct (recursiveUpdate_obj uid v k next) as [k' n1]. cbn [snd] in Hk.
    destruct (IH n1 i c Hi) as (n & Hn & E). exists n. split; [lia|].
    destruct (recursiveUpdate uid v l n1) as [l' n2]. exact E.
Qed.

(** A childless node with another name is handed back as it is. *)
Lemma recursiveUpdate_obj_leaf c n :
  ochildren c = None -> oid c <> uid ->
  recursiveUpdate_obj uid v c n = (c, n).
Proof.
  intros Hc Hne. rewrite recursiveUpdate_obj_eq, Hc.
  destruct (String.eqb_spec (oid c) uid); [contradiction | reflexivity].
Qed.

(** Childless nodes with another name, and all nodes below an updated
    node, are the objects of the input, at their positions. *)
Lemma update_shares p : forall lst next n,
  nodeAt lst p = Some n ->
  (ochildren n = None /\ oid n <> uid) \/ belowUpdated uid lst p = true ->
  nodeAt (update lst next uid v) p = Some n.
Proof.
  unfold update.
  induction p as [|i q IH]; intros lst next n Hn Hor; [discriminate|].
  cbn [nodeAt belowUpdated] in *.
  destruct (nth_error lst i) as [c|] eqn:Hi; [|discriminate].
  destruct (recursiveUpdate_nth lst next i c Hi) as (m & _ & ->).
  rewrite recursiveUpdate_obj_eq.
  destruct q as [|j q'].
  - injection Hn as ->. destruct Hor as [[Hc Hne] | ?]; [|discriminate].
    rewrite Hc. destruct (String.eqb_spec (oid n) uid); [contradiction|].
    reflexivity.
  - destruct (String.eqb (oid c) uid); cbn [fst ochildren]; [exact Hn|].
    destruct (ochildren c) as [cs|]; [|discriminate].
    specialize (IH cs (S m) n Hn Hor).
    destruct (recursiveUpdate uid v cs (S m)) as [cs' n']. exact IH.
Qed.

(** Every other node the traversal visits (the updated node, and every
    node that carries a children list) is replaced by a new object. *)
Lemma update_copies p : forall lst next n,
  nodeAt lst p = Some n ->
  belowUpdated uid lst p = false ->
  oid n = uid \/ ochildren n <> None ->
  exists n', nodeAt (update lst next uid v) p = Some n' /\
             (next <= ref n')%nat /\ oid n' = oid n /\ otype n' = otype n.
Proof.
  unfold update.
  induction p as [|i q IH]; intros lst next n Hn Hb Hor; [discriminate|].
  cbn [nodeAt belowUpdated] in *.
  destruct (nth_error lst i) as [c|] eqn:Hi; [|discriminate].
  destruct (recursiveUpdate_nth lst next i c Hi) as (m & Hm & ->).
  rewrite recursiveUpdate_obj_eq.
  destruct q as [|j q'].
  - injection Hn as ->.
    destruct (String.eqb_spec (oid n) uid) as [E|Hne].
    + eexists. split; [reflexivity|]. cbn. auto.
    + destruct Hor as [?|Hc]; [contradiction|].
      destruct (ochildren n) as [cs|]; [|contradiction].
      destruct (recursiveUpdate uid v cs (S m)) as [cs' n'].
      eexists. split; [reflexivity|]. cbn. auto.
  - destruct (String.eqb (oid c) uid); [discriminate|].
    destruct (ochildren c) as [cs|]; [|discriminate].
    destruct (IH cs (S m) n Hn Hb Hor) as (n' & E & Hr & Hid).
    destruct (recursiveUpdate uid v cs (S m)) as [cs' k'].
    exists n'. cbn [fst ochildren]. split; [exact E|]. split; [lia | exact Hid].
Qed.

(** Objects of the input lie below the allocator. *)
Lemma nodeAt_allocated p : forall lst next n,
  allocated next lst = true -> nodeAt lst p = Some n -> (ref n < next)%nat.
Proof.
  induction p as [|i q IH]; intros lst next n Ha Hn; [discriminate|].
  cbn [nodeAt] in Hn.
  destruct (nth_error lst i) as [c|] eqn:Hi; [|discriminate].
  unfold allocated in Ha. rewrite forallb_forall in Ha.
  specialize (Ha c (nth_error_In _ _ Hi)).
  destruct c as [a k t u ch]. cbn [allocated_obj ref ochildren] in Ha.
  apply andb_prop in Ha as [Hlt Hch]. destruct q as [|j q'].
  - injection Hn as <-. cbn. apply Nat.ltb_lt, Hlt.
  - cbn [ochildren] in Hn. destruct ch as [cs|]; [|discriminate].
    exact (IH cs next n Hch Hn).
Qed.

(** The commands held by the result are those the update computes on
    values: addresses only add the identity of the objects. *)
Lemma update_contents_step lst :
  Forall (fun c => forall n,
            contents (fst (recursiveUpdate_obj uid v c n)) =
            recursiveUpdate_cmd uid v (contents c)) lst ->
  forall n, map contents (fst (recursiveUpdate uid v lst n)) =
            map (recursiveUpdate_cmd uid v) (map contents lst).
Proof.
  induction 1 as [|k l Hk _ IHl]; intros n; [reflexivity|].
  rewrite recursiveUpdate_cons. specialize (Hk n).
  destruct (recursiveUpdate_obj uid v k n) as [k' n1]. specialize (IHl n1).
  destruct (recursiveUpdate uid v l n1) as [l' n2]. cbn [fst map] in *.
  rewrite Hk, IHl. reflexivity.
Qed.

Lemma recursiveUpdate_obj_contents c : forall n,
  contents (fst (recursiveUpdate_obj uid v c n)) =
  recursiveUpdate_cmd uid v (contents c).
Proof.
  induction c as [a i t u | a i t u cs IH] using Obj_tree_ind; intros n;
    rewrite recursiveUpdate_obj_eq; cbn [oid ochildren otype ovalue];
    cbn [contents recursiveUpdate_cmd id children oid ochildren];
    destruct (String.eqb i uid); try reflexivity.
  pose proof (update_contents_step cs IH (S n)) as E.
  destruct (recursiveUpdate uid v cs (S n)) as [cs' n'].
  cbn [fst contents oid otype ovalue ochildren withChildren id type value] in *.
  rewrite E. reflexivity.
Qed.

Lemma update_contents lst next :
  map contents (update lst next uid v) =
  map (recursiveUpdate_cmd uid v) (map contents lst).
Proof.
  apply update_contents_step, Forall_forall. intros c _.
  apply recursiveUpdate_obj_contents.
Qed.

End UpdateFacts.

(* ===================================================================== *)
(** * Properties of the execution engine *)
(* ===================================================================== *)

Section EngineFacts.
Variable sd : nat -> bool.

(** ** Unfolding equations *)

Lemma sleep_eq w :
  sleep sd w = (tt, if sd (timers w) then handleStop (tick w) else tick w).
Proof. reflexivity. Qed.

Lemma sleep_path w : path (snd (sleep sd w)) = path w.
Proof. rewrite sleep_eq. simpl. destruct (sd (timers w)); reflexivity. Qed.

Lemma sleep_poseUpdates w : poseUpdates (snd (sleep sd w)) = poseUpdates w.
Proof. rewrite sleep_eq. simpl. destruct (sd (timers w)); reflexivity. Qed.

Lemma sleep_robotState w : robotState (snd (sleep sd w)) = robotState w.
Proof. rewrite sleep_eq. simpl. destruct (sd (timers w)); reflexivity. Qed.

Lemma sleep_stopRef w :
  stopRef (snd (sleep sd w)) = sd (timers w) || stopRef w.
Proof. rewrite sleep_eq. simpl. destruct (sd (timers w)); reflexivity. Qed.

Lemma sleep_timers w : timers (snd (sleep sd w)) = S (timers w).
Proof. rewrite sleep_eq. simpl. destruct (sd (timers w)); reflexivity. Qed.

Lemma executeCommand_eq cmd r w :
  executeCommand sd cmd r w =
  if stopRef w then (r, w) else
  let w1 := snd (sleep sd w) in
  match type cmd with
  | FORWARD | BACKWARD =>
      let r' := moved cmd r in
      (r', setPath (fun prev => prev ++ [mkPoint (x r') (y r')])
             (setRobotState r' w1))
  | TURN_LEFT | TURN_RIGHT =>
      let r' := turned cmd r in (r', setRobotState r' w1)
  | REPEAT =>
      match children cmd with
      | Some cs => repeatLoop (Z.to_nat (value cmd)) (runSequence sd cs) r w1
      | None => (r, w1)
      end
  end.
Proof.
  destruct cmd as [i t v [cs|]]; destruct t; simpl;
    unfold bind, get, ret; simpl; destruct (stopRef w); reflexivity.
Qed.

(** The three cases of the [switch], for a command that is let in. *)
Lemma executeCommand_move cmd r w :
  stopRef w = false ->
  type cmd = FORWARD \/ type cmd = BACKWARD ->
  executeCommand sd cmd r w =
  (moved cmd r,
   setPath (fun prev => prev ++ [mkPoint (x (moved cmd r)) (y (moved cmd r))])
     (setRobotState (moved cmd r) (snd (sleep sd w)))).
Proof.
  intros Hs Ht. rewrite executeCommand_eq, Hs.
  destruct Ht as [-> | ->]; reflexivity.
Qed.

Lemma executeCommand_turn cmd r w :
  stopRef w = false ->
  type cmd = TURN_LEFT \/ type cmd = TURN_RIGHT ->
  executeCommand sd cmd r w =
  (turned cmd r, setRobotState (turned cmd r) (snd (sleep sd w))).
Proof.
  intros Hs Ht. rewrite executeCommand_eq, Hs.
  destruct Ht as [-> | ->]; reflexivity.
Qed.

Lemma executeCommand_repeat cmd cs r w :
  stopRef w = false ->
  type cmd = REPEAT ->
  children cmd = Some cs ->
  executeCommand sd cmd r w =
  repeatLoop (Z.to_nat (value cmd)) (runSequence sd cs) r (snd (sleep sd w)).
Proof.
  intros Hs Ht Hc. rewrite executeCommand_eq, Hs, Ht, Hc. reflexivity.
Qed.

Lemma runSequence_cons cmd rest r w :
  runSequence sd (cmd :: rest) r w =
  if stopRef w then (r, w)
  else let '(r', w') := executeCommand sd cmd r w in runSequence sd rest r' w'.
Proof. simpl. unfold bind, get, ret. destruct (stopRef w); reflexivity. Qed.

Lemma repeatLoop_succ n body r w :
  repeatLoop (S n) body r w =
  let '(r', w') := body r w in
  if stopRef w' then (r', w') else repeatLoop n body r' w'.
Proof.
  simpl. unfold bind, get, ret. destruct (body r w) as [r' w'].
  destruct (stopRef w'); reflexivity.
Qed.

(** ** Once the flag is set nothing runs *)

Lemma executeCommand_stopped cmd r w :
  stopRef w = true -> executeCommand sd cmd r w = (r, w).
Proof. intros H. rewrite executeCommand_eq, H. reflexivity. Qed.

Lemma runSequence_stopped cs r w :
  stopRef w = true -> runSequence sd cs r w = (r, w).
Proof.
  intros H. destruct cs; [reflexivity|]. rewrite runSequence_cons, H.
  reflexivity.
Qed.

Lemma repeatLoop_stopped n cs r w :
  stopRef w = true -> repeatLoop n (runSequence sd cs) r w = (r, w).
Proof.
  intros H. destruct n; [reflexivity|].
  rewrite repeatLoop_succ, runSequence_stopped, H by exact H. reflexivity.
Qed.

(** ** The recorded path and pose updates only grow *)

Lemma grows_refl w : grows w w.
Proof. split; reflexivity. Qed.

Lemma grows_trans w1 w2 w3 : grows w1 w2 -> grows w2 w3 -> grows w1 w3.
Proof. intros [? ?] [? ?]. split; etrans; eassumption. Qed.

Lemma grows_sleep w : grows w (snd (sleep sd w)).
Proof. split; [rewrite sleep_path | rewrite sleep_poseUpdates]; reflexivity. Qed.

Lemma runSequence_grows_step cs :
  Forall (fun c => forall r w, grows w (snd (executeCommand sd c r w))) cs ->
  forall r w, grows w (snd (runSequence sd cs r w)).
Proof.
  induction 1 as [|c l Hc _ IHl]; intros r w; [apply grows_refl|].
  rewrite runSequence_cons. destruct (stopRef w); [apply grows_refl|].
  specialize (Hc r w). destruct (executeCommand sd c r w) as [r' w'].
  eapply grows_trans; [exact Hc | apply IHl].
Qed.

Lemma repeatLoop_grows n (body : RobotState -> Async RobotState) :
  (forall r w, grows w (snd (body r w))) ->
  forall r w, grows w (snd (repeatLoop n body r w)).
Proof.
  intros Hb. induction n as [|n IH]; intros r w; [apply grows_refl|].
  rewrite repeatLoop_succ. specialize (Hb r w).
  destruct (body r w) as [r' w']. destruct (stopRef w'); [exact Hb|].
  eapply grows_trans; [exact Hb | apply IH].
Qed.

Lemma executeCommand_grows cmd : forall r w,
  grows w (snd (executeCommand sd cmd r w)).
Proof.
  induction cmd as [i t v | i t v cs IH] using Command_tree_ind; intros r w;
    rewrite executeCommand_eq; destruct (stopRef w); try apply grows_refl;
    cbn [type children value]; destruct t; cbn [snd];
    try (eapply grows_trans; [apply grows_sleep|]);
    try apply grows_refl;
    try (split; cbn [path poseUpdates setPath setRobotState];
         solve [reflexivity | apply prefix_app_r; reflexivity]).
  apply repeatLoop_grows. apply runSequence_grows_step, IH.
Qed.

Lemma runSequence_grows cs r w : grows w (snd (runSequence sd cs r w)).
Proof.
  apply runSequence_grows_step, Forall_forall. intros c _.
  apply executeCommand_grows.
Qed.

Lemma handleRun_eq w :
  handleRun sd w =
  if Nat.eqb (length (commands w)) 0 then (tt, w) else
  let w0 := resetPosition (setStopRef false (setIsPlaying true w)) in
  let '(r, w1) := runSequence sd (commands w) initialState (snd (sleep sd w0)) in
  (tt, setIsPlaying false w1).
Proof.
  unfold handleRun, bind, get, ret, modify. cbn beta iota.
  destruct (Nat.eqb (length (commands w)) 0); [reflexivity|].
  cbn [snd]. destruct (sleep sd _) as [u w']. cbn [snd].
  destruct (runSequence sd (commands w) initialState w'). reflexivity.
Qed.

End EngineFacts.

(** ** Runs that are never stopped *)

Section Uninterrupted.
Variable sd : nat -> bool.
Hypothesis sd_never : forall k, sd k = false.

Lemma ranFully_trans m1 l1 m2 l2 w1 w2 w3 :
  ranFully m1 l1 w1 w2 -> ranFully m2 l2 w2 w3 ->
  ranFully (m1 + m2) (l1 + l2) w1 w3.
Proof. unfold ranFully. intros (? & ? & ?) (? & ? & ?). repeat split; [assumption | lia..]. Qed.

Lemma sleep_never w : snd (sleep sd w) = tick w.
Proof. rewrite sleep_eq, sd_never. reflexivity. Qed.

Lemma runSequence_ranFully_step cs :
  Forall (fun c => forall r w, stopRef w = false ->
            ranFully (moveCount c) (leafCount c) w
                     (snd (executeCommand sd c r w))) cs ->
  forall r w, stopRef w = false ->
    ranFully (total (map moveCount cs)) (total (map leafCount cs)) w
             (snd (runSequence sd cs r w)).
Proof.
  induction 1 as [|c l Hc _ IHl]; intros r w Hw.
  - simpl. unfold ranFully. repeat split; [assumption | lia..].
  - rewrite runSequence_cons, Hw. specialize (Hc r w Hw).
    destruct (executeCommand sd c r w) as [r' w']. cbn [snd] in Hc.
    cbn [map total fold_right]. eapply ranFully_trans; [exact Hc|].
    apply IHl. apply Hc.
Qed.

Lemma repeatLoop_ranFully n (body : RobotState -> Async RobotState) m l :
  (forall r w, stopRef w = false -> ranFully m l w (snd (body r w))) ->
  forall r w, stopRef w = false ->
    ranFully (n * m) (n * l) w (snd (repeatLoop n body r w)).
Proof.
  intros Hb. induction n as [|n IH]; intros r w Hw.
  - simpl. unfold ranFully. repeat split; [assumption | lia..].
  - rewrite repeatLoop_succ. specialize (Hb r w Hw).
    destruct (body r w) as [r' w']. cbn [snd] in Hb.
    destruct Hb as (Hs & Hp & Hu). rewrite Hs.
    cbn [Nat.mul]. eapply ranFully_trans; [|apply IH; exact Hs].
    repeat split; assumption.
Qed.

Lemma executeCommand_ranFully cmd : forall r w,
  stopRef w = false ->
  ranFully (moveCount cmd) (leafCount cmd) w (snd (executeCommand sd cmd r w)).
Proof.
  induction cmd as [i t v | i t v cs IH] using Command_tree_ind; intros r w Hw;
    rewrite executeCommand_eq, Hw, sleep_never;
    cbn [type children value moveCount leafCount]; destruct t; cbn [snd];
    try (unfold ranFully;
         cbn [path poseUpdates stopRef setPath setRobotState tick];
         rewrite ?length_app; cbn [length];
         repeat split; [assumption | lia..]).
  apply (repeatLoop_ranFully (Z.to_nat v) (runSequence sd cs) _ _
           (runSequence_ranFully_step cs IH) r (tick w) Hw).
Qed.

Lemma runSequence_ranFully cs r w :
  stopRef w = false ->
  ranFully (total (map moveCount cs)) (total (map leafCount cs)) w
           (snd (runSequence sd cs r w)).
Proof.
  apply runSequence_ranFully_step, Forall_forall. intros c _.
  apply executeCommand_ranFully.
Qed.

(** With the flag clear throughout, the loop of [REPEAT] is plain
    iteration of its body. *)
Lemma repeatLoop_rounds n cs : forall r w,
  stopRef w = false ->
  repeatLoop n (runSequence sd cs) r w = rounds n (runSequence sd cs) r w.
Proof.
  induction n as [|n IH]; intros r w Hw; [reflexivity|].
  rewrite repeatLoop_succ. cbn [rounds]. unfold bind.
  pose proof (runSequence_ranFully cs r w Hw) as (Hs & _).
  destruct (runSequence sd cs r w) as [r' w']. cbn [snd] in Hs.
  rewrite Hs. apply IH, Hs.
Qed.

Lemma runSequence_bind cmd rest r w :
  stopRef w = false ->
  runSequence sd (cmd :: rest) r w =
  bind (executeCommand sd cmd r) (runSequence sd rest) w.
Proof. intros Hw. rewrite runSequence_cons, Hw. reflexivity. Qed.

End Uninterrupted.

(** ** An interrupted run against the uninterrupted one *)

Section Cancellation.
Variable sd : nat -> bool.

Lemma behind_stopped r1 w1 (p2 p2' : RobotState * World) :
  stopRef w1 = true ->
  path w1 `prefix_of` path (snd p2) ->
  grows (snd p2) (snd p2') ->
  behind (r1, w1) p2'.
Proof.
  intros Hs Hp [Hg _]. right. split; [exact Hs|]. cbn [snd].
  etrans; eassumption.
Qed.

Lemma runSequence_behind_step cs :
  Forall (fun c => forall p1 p2, behind p1 p2 ->
            behind (executeCommand sd c (fst p1) (snd p1))
                   (executeCommand neverStopped c (fst p2) (snd p2))) cs ->
  forall p1 p2, behind p1 p2 ->
    behind (runSequence sd cs (fst p1) (snd p1))
           (runSequence neverStopped cs (fst p2) (snd p2)).
Proof.
  induction 1 as [|c l Hc _ IHl]; intros [r1 w1] [r2 w2] Hb.
  - exact Hb.
  - destruct Hb as [[E Hs] | [Hs Hp]]; cbn [fst snd] in *.
    + injection E as <- <-. rewrite !runSequence_cons, Hs.
      specialize (Hc (r1, w1) (r1, w1)). cbn [fst snd] in Hc.
      pose proof (Hc (or_introl (conj eq_refl Hs))) as Hb'.
      destruct (executeCommand sd c r1 w1) as [r1' w1'].
      destruct (executeCommand neverStopped c r1 w1) as [r2' w2'].
      exact (IHl (r1', w1') (r2', w2') Hb').
    + rewrite runSequence_stopped by exact Hs.
      eapply (behind_stopped r1 w1 (r2, w2)); [exact Hs | exact Hp |].
      apply runSequence_grows.
Qed.

Lemma repeatLoop_behind n cs :
  (forall p1 p2, behind p1 p2 ->
     behind (runSequence sd cs (fst p1) (snd p1))
            (runSequence neverStopped cs (fst p2) (snd p2))) ->
  forall p1 p2, behind p1 p2 ->
    behind (repeatLoop n (runSequence sd cs) (fst p1) (snd p1))
           (repeatLoop n (runSequence neverStopped cs) (fst p2) (snd p2)).
Proof.
  intros Hbody. induction n as [|n IH]; intros [r1 w1] [r2 w2] Hb.
  - exact Hb.
  - destruct Hb as [[E Hs] | [Hs Hp]]; cbn [fst snd] in *.
    + injection E as <- <-. rewrite !repeatLoop_succ.
      pose proof (Hbody (r1, w1) (r1, w1) (or_introl (conj eq_refl Hs))) as Hb'.
      cbn [fst snd] in Hb'.
      destruct (runSequence sd cs r1 w1) as [r1' w1'].
      destruct (runSequence neverStopped cs r1 w1) as [r2' w2'].
      destruct Hb' as [[E' Hs'] | [Hs' Hp']]; cbn [fst snd] in *.
      * injection E' as <- <-. rewrite Hs'.
        apply (IH (r1', w1') (r1', w1')). left. split; [reflexivity | exact Hs'].
      * rewrite Hs'. destruct (stopRef w2').
        -- right. split; assumption.
        -- eapply (behind_stopped r1' w1' (r2', w2')); [exact Hs' | exact Hp' |].
           apply repeatLoop_grows. intros. apply runSequence_grows.
    + rewrite repeatLoop_stopped by exact Hs.
      eapply (behind_stopped r1 w1 (r2, w2)); [exact Hs | exact Hp |].
      apply repeatLoop_grows. intros. apply runSequence_grows.
Qed.

(** After the wait of a command the two runs are either in step, or the
    first has just been stopped with every recorded value unchanged. *)
Lemma sleep_behind r w :
  stopRef w = false ->
  behind (r, snd (sleep sd w)) (r, snd (sleep neverStopped w)) /\
  path (snd (sleep sd w)) = path (snd (sleep neverStopped w)).
Proof.
  intros Hs. rewrite !sleep_eq. unfold neverStopped. cbn [snd].
  destruct (sd (timers w)).
  - split; [right; split; reflexivity | reflexivity].
  - split; [left; split; [reflexivity | exact Hs] | reflexivity].
Qed.

Lemma executeCommand_behind cmd : forall p1 p2,
  behind p1 p2 ->
  behind (executeCommand sd cmd (fst p1) (snd p1))
         (executeCommand neverStopped cmd (fst p2) (snd p2)).
Proof.
  induction cmd as [i t v | i t v cs IH] using Command_tree_ind;
    intros [r1 w1] [r2 w2] Hb;
    (destruct Hb as [[E Hs] | [Hs Hp]]; cbn [fst snd] in *;
     [ injection E as <- <-
     | rewrite executeCommand_stopped by exact Hs;
       eapply (behind_stopped r1 w1 (r2, w2));
         [exact Hs | exact Hp | apply executeCommand_grows] ]).
  - rewrite !executeCommand_eq, Hs. cbn [type children value].
    destruct (sleep_behind r1 w1 Hs) as [Hb Hp].
    set (wa := snd (sleep sd w1)) in *.
    set (wb := snd (sleep neverStopped w1)) in *.
    destruct Hb as [[E Hs'] | [Hs' _]]; cbn [fst snd] in *.
    + injection E as E. rewrite <- E.
      destruct t; left; (split; [reflexivity | exact Hs']).
    + destruct t; right; cbn [snd path stopRef setPath setRobotState];
        (split; [exact Hs' | rewrite ?Hp; reflexivity]).
  - rewrite !executeCommand_eq, Hs. cbn [type children value].
    destruct (sleep_behind r1 w1 Hs) as [Hb Hp].
    set (wa := snd (sleep sd w1)) in *.
    set (wb := snd (sleep neverStopped w1)) in *.
    destruct t;
      try (destruct Hb as [[E Hs'] | [Hs' _]]; cbn [fst snd] in *;
           [ injection E as E; rewrite <- E; left;
             split; [reflexivity | exact Hs']
           | right; cbn [snd path stopRef setPath setRobotState];
             split; [exact Hs' | rewrite ?Hp; reflexivity] ]).
    apply (repeatLoop_behind (Z.to_nat v) cs
             (runSequence_behind_step cs IH) (r1, wa) (r1, wb) Hb).
Qed.

Lemma runSequence_behind cs p1 p2 :
  behind p1 p2 ->
  behind (runSequence sd cs (fst p1) (snd p1))
         (runSequence neverStopped cs (fst p2) (snd p2)).
Proof.
  apply runSequence_behind_step, Forall_forall. intros c _.
  apply executeCommand_behind.
Qed.

Lemma handleRun_prefix w :
  path (snd (handleRun sd w)) `prefix_of`
  path (snd (handleRun neverStopped w)).
Proof.
  rewrite !handleRun_eq.
  destruct (Nat.eqb (length (commands w)) 0); [reflexivity|]. cbv zeta.
  set (w0 := resetPosition (setStopRef false (setIsPlaying true w))).
  destruct (sleep_behind initialState w0 eq_refl) as [Hb _].
  apply (runSequence_behind (commands w)) in Hb. cbn [fst snd] in Hb.
  destruct (runSequence sd (commands w) initialState (snd (sleep sd w0)))
    as [r1 w1].
  destruct (runSequence neverStopped (commands w) initialState
              (snd (sleep neverStopped w0))) as [r2 w2].
  cbn [snd path setIsPlaying].
  destruct Hb as [[E _] | [_ Hp]]; [injection E as _ <-; reflexivity | exact Hp].
Qed.

End Cancellation.

(** ** The engine against the expansion of the tree *)

Section Expansion.
Variable sd : nat -> bool.
Hypothesis sd_never : forall k, sd k = false.

Lemma applyLeaves_app l1 l2 o :
  applyLeaves (l1 ++ l2) o = applyLeaves l2 (applyLeaves l1 o).
Proof. apply fold_left_app. Qed.

Lemma runSequence_expand_step cs :
  Forall (fun c => forall r w, stopRef w = false ->
            observed (executeCommand sd c r w) =
            applyLeaves (expand c) (observed (r, w))) cs ->
  forall r w, stopRef w = false ->
    observed (runSequence sd cs r w) =
    applyLeaves (flat_map expand cs) (observed (r, w)).
Proof.
  induction 1 as [|c l Hc _ IHl]; intros r w Hw; [reflexivity|].
  rewrite runSequence_cons, Hw. cbn [flat_map]. rewrite applyLeaves_app.
  rewrite <- (Hc r w Hw).
  pose proof (executeCommand_ranFully sd sd_never c r w Hw) as (Hs & _).
  destruct (executeCommand sd c r w) as [r' w']. apply IHl, Hs.
Qed.

Lemma rounds_expand n (body : RobotState -> Async RobotState) leaves :
  (forall r w, stopRef w = false ->
     stopRef (snd (body r w)) = false /\
     observed (body r w) = applyLeaves leaves (observed (r, w))) ->
  forall r w, stopRef w = false ->
    observed (rounds n body r w) =
    applyLeaves (concat (repeat leaves n)) (observed (r, w)).
Proof.
  intros Hb. induction n as [|n IH]; intros r w Hw; [reflexivity|].
  cbn [rounds repeat concat]. unfold bind. rewrite applyLeaves_app.
  destruct (Hb r w Hw) as [Hs <-].
  destruct (body r w) as [r' w']. apply IH, Hs.
Qed.

Lemma executeCommand_expand cmd : forall r w,
  stopRef w = false ->
  observed (executeCommand sd cmd r w) =
  applyLeaves (expand cmd) (observed (r, w)).
Proof.
  induction cmd as [i t v | i t v cs IH] using Command_tree_ind; intros r w Hw;
    rewrite executeCommand_eq, Hw, sleep_never by exact sd_never;
    cbn [type children value expand]; destruct t; try reflexivity.
  rewrite repeatLoop_rounds by assumption.
  rewrite (rounds_expand (Z.to_nat v) (runSequence sd cs) (flat_map expand cs));
    [reflexivity | | exact Hw].
  intros r0 w0 H0. split.
  - apply (runSequence_ranFully sd sd_never cs r0 w0 H0).
  - apply (runSequence_expand_step cs IH r0 w0 H0).
Qed.

Lemma runSequence_expand cs r w :
  stopRef w = false ->
  observed (runSequence sd cs r w) =
  applyLeaves (flat_map expand cs) (observed (r, w)).
Proof.
  apply runSequence_expand_step, Forall_forall. intros c _.
  apply executeCommand_expand.
Qed.

End Expansion.

(** ** Any run against the expansion of the tree *)

Section AnySchedule.
Variable sd : nat -> bool.

Lemma ranPrefix_none start r w :
  observed (r, w) = start -> stopRef w = true -> forall leaves,
  ranPrefix leaves start (r, w).
Proof.
  intros E Hs leaves. split.
  - exists 0%nat. exact E.
  - cbn [snd]. rewrite Hs. discriminate.
Qed.

Lemma ranPrefix_seq l1 l2 start res1 res2 :
  ranPrefix l1 start res1 ->
  ranPrefix l2 (observed res1) res2 ->
  (stopRef (snd res1) = true -> res2 = res1) ->
  ranPrefix (l1 ++ l2) start res2.
Proof.
  intros [[k1 E1] F1] [[k2 E2] F2] Hstop.
  destruct (stopRef (snd res1)) eqn:Hs1.
  - rewrite (Hstop eq_refl). split.
    + exists (Nat.min k1 (length l1)). rewrite E1.
      rewrite firstn_app.
      replace (Nat.min k1 (length l1) - length l1)%nat with 0%nat by lia.
      rewrite firstn_O, app_nil_r.
      destruct (Nat.le_ge_cases k1 (length l1)) as [Hle|Hge].
      * rewrite Nat.min_l by exact Hle. reflexivity.
      * rewrite Nat.min_r by exact Hge. rewrite !firstn_all2 by lia.
        reflexivity.
    + rewrite Hs1. discriminate.
  - specialize (F1 eq_refl). split.
    + exists (length l1 + k2)%nat. rewrite firstn_app_2, applyLeaves_app.
      rewrite <- F1. exact E2.
    + intros Hs2. rewrite applyLeaves_app, <- F1. exact (F2 Hs2).
Qed.

Lemma runSequence_ranPrefix_step cs :
  Forall (fun c => forall r w,
            ranPrefix (expand c) (observed (r, w)) (executeCommand sd c r w)) cs ->
  forall r w,
    ranPrefix (flat_map expand cs) (observed (r, w)) (runSequence sd cs r w).
Proof.
  induction 1 as [|c l Hc _ IHl]; intros r w.
  - split; [exists 0%nat|]; reflexivity.
  - rewrite runSequence_cons. destruct (stopRef w) eqn:Hw.
    + apply ranPrefix_none; [reflexivity | exact Hw].
    + cbn [flat_map]. specialize (Hc r w).
      destruct (executeCommand sd c r w) as [r' w'] eqn:E.
      eapply ranPrefix_seq; [exact Hc | apply IHl |].
      cbn [snd]. intros Hs. apply runSequence_stopped, Hs.
Qed.

Lemma repeatLoop_ranPrefix n cs :
  (forall r w,
     ranPrefix (flat_map expand cs) (observed (r, w)) (runSequence sd cs r w)) ->
  forall r w,
    ranPrefix (concat (repeat (flat_map expand cs) n)) (observed (r, w))
              (repeatLoop n (runSequence sd cs) r w).
Proof.
  intros Hb. induction n as [|n IH]; intros r w.
  - split; [exists 0%nat|]; reflexivity.
  - rewrite repeatLoop_succ. cbn [repeat concat]. specialize (Hb r w).
    destruct (runSequence sd cs r w) as [r' w'] eqn:E.
    destruct (stopRef w') eqn:Hs'.
    + eapply ranPrefix_seq; [exact Hb | | reflexivity].
      apply ranPrefix_none; [reflexivity | exact Hs'].
    + eapply ranPrefix_seq; [exact Hb | apply IH |].
      cbn [snd]. rewrite Hs'. discriminate.
Qed.

Lemma observed_sleep r w : observed (r, snd (sleep sd w)) = observed (r, w).
Proof.
  unfold observed. cbn [fst snd]. rewrite sleep_path, sleep_poseUpdates.
  reflexivity.
Qed.

Lemma executeCommand_ranPrefix cmd : forall r w,
  ranPrefix (expand cmd) (observed (r, w)) (executeCommand sd cmd r w).
Proof.
  induction cmd as [i t v | i t v cs IH] using Command_tree_ind; intros r w;
    rewrite executeCommand_eq; (destruct (stopRef w) eqn:Hw;
      [apply ranPrefix_none; [reflexivity | exact Hw]|]);
    cbn [type children value expand]; rewrite <- (observed_sleep r w);
    destruct t;
    try (split; [exists 1%nat|]; reflexivity);
    try (split; [exists 0%nat|]; reflexivity).
  apply repeatLoop_ranPrefix. apply runSequence_ranPrefix_step, IH.
Qed.

Lemma runSequence_ranPrefix cs r w :
  ranPrefix (flat_map expand cs) (observed (r, w)) (runSequence sd cs r w).
Proof.
  apply runSequence_ranPrefix_step, Forall_forall. intros c _.
  apply executeCommand_ranPrefix.
Qed.

End AnySchedule.

(* ===================================================================== *)
(** * The event loop agrees with the run followed to its end *)
(* ===================================================================== *)

Section EventLoop.
Variable sd : nat -> bool.

Lemma drive_idle fuel w : drive sd fuel (mkMachine w []) = Some w.
Proof. destruct fuel; reflexivity. Qed.

(** One timer of a single suspended call: the wait of [sleep], then the
    call goes on. *)
Lemma drive_step fuel w t :
  drive sd (S fuel) (mkMachine w [t]) =
  drive sd fuel (machineOf (resume t (snd (sleep sd w)))).
Proof.
  cbn [drive pending world]. rewrite sleep_eq. cbn [snd].
  destruct (sd (timers w)); unfold fire; cbn [pending world app].
  - change (tick (handleStop w)) with (handleStop (tick w)).
    destruct (resume t (handleStop (tick w))) as [w' next]. reflexivity.
  - destruct (resume t (tick w)) as [w' next]. reflexivity.
Qed.

Lemma returnTo_repeat more cs callers r w :
  returnTo (InRepeat more cs :: callers) r w =
  if stopRef w then returnTo callers r w
  else
    match more with
    | O => returnTo callers r w
    | S more' =>
        enterSequence cs r (InRepeat more' cs :: callers)
          (returnTo (InRepeat more' cs :: callers) r w) w
    end.
Proof. destruct more; reflexivity. Qed.

Lemma served_handleRun : served sd [InHandleRun].
Proof. intros r w. exists 0%nat. reflexivity. Qed.

(** A sequence entered from the top of its loop ends as [runSequence]
    tells, when its commands are carried out and its callers served. *)
Lemma enterSequence_served cs :
  Forall (carriedOut sd) cs ->
  forall stack, served sd stack ->
  forall r w, exists fuel,
    drive sd fuel
      (machineOf (enterSequence cs r stack (returnTo stack r w) w)) =
    Some (finish sd stack (runSequence sd cs r w)).
Proof.
  induction 1 as [|c rest Hc Hrest IH]; intros stack Hst r w.
  - exact (Hst r w).
  - cbn [enterSequence]. rewrite runSequence_cons.
    destruct (stopRef w) eqn:Hs; [exact (Hst r w)|].
    assert (Hst' : served sd (InSequence rest :: stack)).
    { intros r' w'. exact (IH stack Hst r' w'). }
    destruct (Hc _ Hst' r w Hs) as [fuel Hf]. exists fuel.
    unfold machineOf. cbn [fst snd queued]. rewrite Hf. cbn [finish].
    destruct (executeCommand sd c r w) as [r' w']. reflexivity.
Qed.

(** The rounds of a [REPEAT] that are still to come. *)
Lemma repeat_served cs stack :
  Forall (carriedOut sd) cs -> served sd stack ->
  forall more, served sd (InRepeat more cs :: stack).
Proof.
  intros Hcs Hst. induction more as [|more IH]; intros r w;
    rewrite returnTo_repeat; cbn [finish fst snd];
    destruct (stopRef w) eqn:Hs; try exact (Hst r w).
  destruct (enterSequence_served cs Hcs _ IH r w) as [fuel Hf].
  exists fuel. rewrite Hf. cbn [finish]. rewrite repeatLoop_succ.
  destruct (runSequence sd cs r w) as [r1 w1]. reflexivity.
Qed.

Lemma executeCommand_carriedOut cmd : carriedOut sd cmd.
Proof.
  induction cmd as [i t v | i t v cs IH] using Command_tree_ind;
    intros stack Hst cur w Hs; rewrite executeCommand_eq, Hs; cbv zeta.
  - (* a command without children *)
    destruct t; cbn [type children].
    1-4: match goal with
         | |- context [finish sd _ (?r', ?w')] =>
             destruct (Hst r' w') as [fuel Hf]
         end; exists (S fuel); rewrite drive_step; exact Hf.
    destruct (Hst cur (snd (sleep sd w))) as [fuel Hf].
    exists (S fuel). rewrite drive_step. exact Hf.
  - destruct t; cbn [type children value].
    1-4: match goal with
         | |- context [finish sd _ (?r', ?w')] =>
             destruct (Hst r' w') as [fuel Hf]
         end; exists (S fuel); rewrite drive_step; exact Hf.
    destruct (Z.to_nat v) as [|more] eqn:Hn.
    + destruct (Hst cur (snd (sleep sd w))) as [fuel Hf].
      exists (S fuel). rewrite drive_step.
      cbn [resume]. unfold afterAnimationDelay. cbn [type children value].
      rewrite Hn. exact Hf.
    + destruct (enterSequence_served cs IH _
                  (repeat_served cs stack IH Hst more) cur (snd (sleep sd w)))
        as [fuel Hf].
      exists (S fuel). rewrite drive_step.
      cbn [resume]. unfold afterAnimationDelay. cbn [type children value].
      rewrite Hn, Hf. cbn [finish]. rewrite repeatLoop_succ.
      destruct (runSequence sd cs cur (snd (sleep sd w))) as [r1 w1].
      reflexivity.
Qed.

(** A run started with nothing pending, its timers fired one after the
    other, ends, and ends in the state [handleRun] gives. *)
Lemma startRun_handleRun w :
  exists fuel,
    drive sd fuel (startRun (mkMachine w [])) = Some (snd (handleRun sd w)).
Proof.
  unfold startRun. rewrite handleRun_eq. cbn [world pending app].
  destruct (Nat.eqb (length (commands w)) 0); [exists 0%nat; reflexivity|].
  cbv zeta.
  set (w0 := resetPosition (setStopRef false (setIsPlaying true w))).
  assert (Hall : Forall (carriedOut sd) (commands w)).
  { apply List.Forall_forall. intros c _. apply executeCommand_carriedOut. }
  destruct (enterSequence_served (commands w) Hall [InHandleRun]
              served_handleRun initialState (snd (sleep sd w0))) as [fuel Hf].
  exists (S fuel). rewrite drive_step. cbn [resume]. rewrite Hf.
  cbn [finish]. destruct (runSequence sd (commands w) initialState _).
  reflexivity.
Qed.

End EventLoop.

(* ===================================================================== *)
(** * The properties of the specification *)
(* ===================================================================== *)

Local Open Scope string_scope.

(** ** Command tree model *)

(** C1, as stated, fails: [update] copies every node that carries a
    children list and that the traversal visits.  In [sampleHeap] the
    [REPEAT] node "a" is not on the path from the root to the updated
    node "b", yet the result holds a new object (address 3) in its place. *)
Lemma update_copies_repeat_off_path :
  In "b" (oids sampleHeap) /\
  allocated 3%nat sampleHeap = true /\
  nodeAt sampleHeap [0%nat] = Some heapRepeat /\
  onPath "b" heapRepeat = false /\
  nodeAt (update sampleHeap 3%nat "b" 5) [0%nat] =
    Some (mkObj 3%nat "a" REPEAT 2 (Some [heapLeaf])) /\
  nodeAt (update sampleHeap 3%nat "b" 5) [0%nat] <> nodeAt sampleHeap [0%nat].
Proof.
  repeat split; try reflexivity.
  - cbn. tauto.
  - cbn. discriminate.
Qed.

(** C1, amended: after [update], every node that has no children list and
    is not the updated node, and every node below the updated node, is the
    same object as in the input, at the same position; the updated node and
    every other node with a children list that the traversal visits is a
    new object with the same identifier and kind. *)
Theorem update_sharing program next commandId newValue p n :
  allocated next program = true ->
  nodeAt program p = Some n ->
  if kept commandId program p n
  then nodeAt (update program next commandId newValue) p = Some n
  else exists n',
         nodeAt (update program next commandId newValue) p = Some n' /\
         ref n' <> ref n /\ (next <= ref n')%nat /\
         oid n' = oid n /\ otype n' = otype n.
Proof.
  intros Ha Hn. unfold kept.
  destruct (belowUpdated commandId program p) eqn:Hb; cbn [orb].
  - apply update_shares; [exact Hn | right; exact Hb].
  - destruct (String.eqb_spec (oid n) commandId) as [E|Hne]; cbn [negb andb].
    + destruct (update_copies commandId newValue p program next n Hn Hb
                  (or_introl E)) as (n' & E' & Hr & Hid & Ht).
      exists n'. pose proof (nodeAt_allocated p program next n Ha Hn).
      repeat split; try assumption. lia.
    + destruct (ochildren n) as [cs|] eqn:Hc.
      * destruct (update_copies commandId newValue p program next n Hn Hb)
          as (n' & E' & Hr & Hid & Ht); [right; congruence|].
        exists n'. pose proof (nodeAt_allocated p program next n Ha Hn).
        repeat split; try assumption. lia.
      * apply update_shares; [exact Hn | left; split; assumption].
Qed.

Lemma update_sharing_witness :
  nodeAt (update sampleHeap 3%nat "b" 5) [0%nat; 0%nat] = Some heapLeaf.
Proof.
  exact (update_sharing sampleHeap 3%nat "b" 5 [0%nat; 0%nat] heapLeaf
           eq_refl eq_refl).
Defined.

(** C2, as stated, fails: a container identifier that names an existing
    node of another kind is accepted, and the command becomes that node's
    child. *)
Lemma insert_into_leaf_gives_it_children :
  resolvesToRepeat [forward "a" 1] "a" = false /\
  onlyRepeatHasChildren [forward "a" 1] = true /\
  insert [forward "a" 1] (Some "a") (forward "n" 1) =
    [mkCommand "a" FORWARD 1 (Some [forward "n" 1])] /\
  insert [forward "a" 1] (Some "a") (forward "n" 1) <> [forward "a" 1] /\
  onlyRepeatHasChildren (insert [forward "a" 1] (Some "a") (forward "n" 1)) = false.
Proof. repeat split; try reflexivity. discriminate. Qed.

(** C2, amended: for every program and every non-null container identifier
    that resolves to no node of the program, [insert] returns a program
    equal to the input: the command is appended nowhere. *)
Theorem insert_unresolved_container_noop program containerId command :
  findById program containerId = None ->
  insert program (Some containerId) command = program.
Proof.
  intros H. apply updateTree_absent, findById_None, H.
Qed.

Lemma insert_unresolved_container_noop_witness :
  insert sampleProgram (Some "zz") (forward "n" 1) = sampleProgram.
Proof.
  exact (insert_unresolved_container_noop sampleProgram "zz" (forward "n" 1) eq_refl).
Defined.

(** C9: removing an identifier that occurs nowhere in the tree returns a
    program equal to the input. *)
Theorem remove_unknown_id_noop program unknownId :
  ~ In unknownId (ids program) ->
  remove program unknownId = program.
Proof. apply recursiveFilter_absent. Qed.

Lemma remove_unknown_id_noop_witness :
  remove sampleProgram "zz" = sampleProgram.
Proof.
  apply (remove_unknown_id_noop sampleProgram "zz").
  cbn. intros [H|[H|[H|[]]]]; discriminate H.
Defined.

Local Close Scope string_scope.

(** ** Pose and geometry *)

Lemma toRad_0 : toRad 0 = 0%R.
Proof. unfold toRad. lra. Qed.

(** C5: a movement adds [(cos a, sin a) * (v * GRID_SIZE * s)] to the
    position, with [a] the angle in radians and [s] the sign of the
    direction, and appends exactly one path sample, the new position; with
    value 2, the cell size 40 and angle 0 the displacement is (80, 0). *)
Theorem move_displacement sd cmd r w :
  stopRef w = false ->
  type cmd = FORWARD \/ type cmd = BACKWARD ->
  let s := match type cmd with FORWARD => 1%R | _ => (-1)%R end in
  let angleRad := (angle r * PI / 180)%R in
  let r' := fst (executeCommand sd cmd r w) in
  let w' := snd (executeCommand sd cmd r w) in
  x r' = (x r + cos angleRad * (IZR (value cmd) * IZR GRID_SIZE * s))%R /\
  y r' = (y r + sin angleRad * (IZR (value cmd) * IZR GRID_SIZE * s))%R /\
  angle r' = angle r /\
  path w' = path w ++ [mkPoint (x r') (y r')] /\
  GRID_SIZE = 40 /\
  (type cmd = FORWARD -> value cmd = 2 -> angle r = 0%R ->
   (x r' - x r = 80)%R /\ (y r' - y r = 0)%R).
Proof.
  intros Hs Ht. cbv zeta. rewrite (executeCommand_move sd cmd r w Hs Ht).
  cbn [fst snd path setPath setRobotState]. rewrite sleep_path.
  unfold moved, toRad. cbn [x y angle].
  assert (Hz : (0 * PI / 180 = 0)%R) by lra.
  split; [ring|]. split; [ring|]. do 3 (split; [reflexivity|]).
  intros Hf Hv Ha. rewrite Hf, Hv, Ha, Hz, cos_0, sin_0. unfold GRID_SIZE.
  split; lra.
Qed.

Lemma move_displacement_witness :
  (x (fst (executeCommand neverStopped (forward "a" 2) (mkRobot 0 0 0 true)
             (idle [forward "a" 2]))) - 0 = 80)%R.
Proof.
  refine (proj1 (proj2 (proj2 (proj2 (proj2 (proj2
    (move_displacement neverStopped (forward "a" 2) (mkRobot 0 0 0 true)
       (idle [forward "a" 2]) eq_refl (or_introl eq_refl)))))) eq_refl eq_refl eq_refl)).
Defined.

(** C7: a turn adds the value to the angle for a right turn and subtracts
    it for a left turn; the result is not reduced to any range, and no
    path sample is appended. *)
Theorem turn_adds_signed_value sd cmd r w :
  stopRef w = false ->
  type cmd = TURN_LEFT \/ type cmd = TURN_RIGHT ->
  let r' := fst (executeCommand sd cmd r w) in
  let w' := snd (executeCommand sd cmd r w) in
  angle r' = (match type cmd with
              | TURN_RIGHT => angle r + IZR (value cmd)
              | _ => angle r - IZR (value cmd)
              end)%R /\
  x r' = x r /\ y r' = y r /\
  path w' = path w.
Proof.
  intros Hs Ht. cbv zeta. rewrite (executeCommand_turn sd cmd r w Hs Ht).
  cbn [fst snd path setRobotState]. rewrite sleep_path.
  unfold turned. cbn [x y angle].
  destruct Ht as [-> | ->]; (repeat split; try reflexivity); ring.
Qed.

Lemma turn_adds_signed_value_witness :
  angle (fst (executeCommand neverStopped (turnRight "c" 90) (mkRobot 0 0 360 true)
                (idle [turnRight "c" 90]))) = (360 + 90)%R.
Proof.
  exact (proj1 (turn_adds_signed_value neverStopped (turnRight "c" 90)
                  (mkRobot 0 0 360 true) (idle [turnRight "c" 90])
                  eq_refl (or_intror eq_refl))).
Defined.

(** ** Execution engine *)

(** C6: in a run that is not stopped, a [REPEAT] node with count [n] runs
    its whole child sequence [n] times, one round after the other, before
    its siblings; the node publishes no pose and no path sample of its own
    (it only waits); nested [REPEAT] nodes run the same way at any depth:
    what a program lets the outside see is what its expansion into leaves,
    applied in order, produces.  In particular three rounds of a right
    turn by 90 from angle 0 end at angle 270 with the path unchanged. *)
Theorem repeat_runs_children_n_times sd cmd cs n rest r w :
  (forall k, sd k = false) ->
  stopRef w = false ->
  type cmd = REPEAT ->
  children cmd = Some cs ->
  value cmd = Z.of_nat n ->
  executeCommand sd cmd r w = rounds n (runSequence sd cs) r (tick w) /\
  path (tick w) = path w /\
  poseUpdates (tick w) = poseUpdates w /\
  robotState (tick w) = robotState w /\
  runSequence sd (cmd :: rest) r w =
    bind (rounds n (runSequence sd cs) r) (runSequence sd rest) (tick w) /\
  expand cmd = concat (repeat (flat_map expand cs) n) /\
  (forall program,
     observed (runSequence sd program r w) =
     applyLeaves (flat_map expand program) (observed (r, w))) /\
  (forall i j px py pen,
     let res := executeCommand sd (repeatOf i 3 [turnRight j 90]) (mkRobot px py 0 pen) w in
     angle (fst res) = 270%R /\ path (snd res) = path w).
Proof.
  intros Hsd Hs Ht Hc Hv.
  assert (E : executeCommand sd cmd r w = rounds n (runSequence sd cs) r (tick w)).
  { rewrite (executeCommand_repeat sd cmd cs r w Hs Ht Hc), sleep_never by exact Hsd.
    rewrite Hv, Nat2Z.id. apply repeatLoop_rounds; [exact Hsd | exact Hs]. }
  split; [exact E|]. do 3 (split; [reflexivity|]). split; [|split; [|split]].
  - rewrite runSequence_bind by assumption. unfold bind. rewrite E. reflexivity.
  - destruct cmd as [ci ct cv cc]. cbn in Ht, Hc, Hv. subst ct cc cv.
    cbn [expand type children value]. rewrite Nat2Z.id. reflexivity.
  - intros program. apply runSequence_expand; assumption.
  - intros i j px py pen. cbv zeta. set (c := turnRight j 90).
    assert (Hround : forall r0 w0, stopRef w0 = false ->
              runSequence sd [c] r0 w0 =
              (turned c r0, setRobotState (turned c r0) (tick w0))).
    { intros r0 w0 H0. rewrite runSequence_cons, H0.
      rewrite (executeCommand_turn sd c r0 w0 H0 (or_intror eq_refl)).
      rewrite sleep_never by exact Hsd. reflexivity. }
    rewrite (executeCommand_repeat sd (repeatOf i 3 [c]) [c] _ w Hs eq_refl eq_refl).
    rewrite sleep_never by exact Hsd.
    rewrite repeatLoop_rounds by (exact Hsd || exact Hs).
    change (Z.to_nat (value (repeatOf i 3 [c]))) with 3%nat.
    cbn [rounds]. unfold bind, ret.
    rewrite !Hround by exact Hs.
    cbn [fst snd path angle turned setRobotState tick value type c turnRight].
    split; [ring | reflexivity].
Qed.

Lemma repeat_runs_children_n_times_witness :
  angle (fst (executeCommand neverStopped (repeatOf "b" 3 [turnRight "c" 90])
                (mkRobot 0 0 0 true) (idle sampleProgram))) = 270%R.
Proof.
  exact (proj1 (proj2 (proj2 (proj2 (proj2 (proj2 (proj2 (proj2
    (repeat_runs_children_n_times neverStopped (repeatOf "b" 3 [turnRight "c" 90])
       [turnRight "c" 90] 3 [] (mkRobot 0 0 0 true) (idle sampleProgram)
       (fun _ => eq_refl) eq_refl eq_refl eq_refl eq_refl)))))))
    "b"%string "c"%string 0%R 0%R true)).
Defined.

(** C8: in every run the path starts with the origin; a command never
    shortens the path or the sequence of published poses; whenever the run
    is stopped, what has been published and appended is what an initial
    part of the expansion into leaves produces, each leaf applied once; a
    movement that is let in appends exactly one point and publishes exactly
    one pose, a turn publishes exactly one pose and appends no point, both
    before the command returns; a [REPEAT] adds nothing of its own: an
    uninterrupted one grows the path by its movements and the published
    poses by its leaves, each counted once per round. *)
Theorem path_and_pose_publication sd cmd r w :
  let r' := fst (executeCommand sd cmd r w) in
  let w' := snd (executeCommand sd cmd r w) in
  path w `prefix_of` path w' /\
  poseUpdates w `prefix_of` poseUpdates w' /\
  (exists k, observed (r', w') =
             applyLeaves (firstn k (expand cmd)) (observed (r, w))) /\
  (forall rest, path w = origin :: rest ->
     exists rest', path w' = origin :: rest') /\
  (Nat.eqb (length (commands w)) 0 = false ->
     exists rest, path (snd (handleRun sd w)) = origin :: rest) /\
  (stopRef w = false ->
     match type cmd with
     | FORWARD | BACKWARD =>
         path w' = path w ++ [mkPoint (x r') (y r')] /\
         poseUpdates w' = poseUpdates w ++ [r'] /\
         robotState w' = r'
     | TURN_LEFT | TURN_RIGHT =>
         path w' = path w /\
         poseUpdates w' = poseUpdates w ++ [r'] /\
         robotState w' = r'
     | REPEAT =>
         (forall k, sd k = false) ->
         length (path w') = (length (path w) + moveCount cmd)%nat /\
         length (poseUpdates w') = (length (poseUpdates w) + leafCount cmd)%nat
     end).
Proof.
  cbv zeta. destruct (executeCommand_grows sd cmd r w) as [Hp Hu].
  split; [exact Hp|]. split; [exact Hu|]. split; [|split; [|split]].
  - destruct (executeCommand_ranPrefix sd cmd r w) as [[k Hk] _].
    exists k. rewrite <- Hk. destruct (executeCommand sd cmd r w). reflexivity.
  - intros rest Hr. destruct Hp as [k Hk]. rewrite Hk, Hr. eauto.
  - intros Hne. rewrite handleRun_eq, Hne. cbv zeta.
    set (w0 := resetPosition (setStopRef false (setIsPlaying true w))).
    destruct (runSequence_grows sd (commands w) initialState (snd (sleep sd w0)))
      as [[k Hk] _].
    destruct (runSequence sd (commands w) initialState (snd (sleep sd w0)))
      as [r1 w1].
    cbn [snd path setIsPlaying] in *. rewrite Hk, sleep_path. cbn. eauto.
  - intros Hs. destruct (type cmd) eqn:Ht.
    + rewrite (executeCommand_move sd cmd r w Hs (or_introl Ht)).
      cbn [fst snd path poseUpdates robotState setPath setRobotState].
      rewrite sleep_path, sleep_poseUpdates. auto.
    + rewrite (executeCommand_move sd cmd r w Hs (or_intror Ht)).
      cbn [fst snd path poseUpdates robotState setPath setRobotState].
      rewrite sleep_path, sleep_poseUpdates. auto.
    + rewrite (executeCommand_turn sd cmd r w Hs (or_intror Ht)).
      cbn [fst snd path poseUpdates robotState setPath setRobotState].
      rewrite sleep_path, sleep_poseUpdates. auto.
    + rewrite (executeCommand_turn sd cmd r w Hs (or_introl Ht)).
      cbn [fst snd path poseUpdates robotState setPath setRobotState].
      rewrite sleep_path, sleep_poseUpdates. auto.
    + intros Hsd. apply (executeCommand_ranFully sd Hsd cmd r w Hs).
Qed.

Lemma path_and_pose_publication_witness :
  length (path (snd (executeCommand neverStopped
                       (repeatOf "b" 2 [forward "a" 1; turnRight "c" 90; forward "d" 1])
                       initialState (idle sampleProgram)))) = 5%nat /\
  length (poseUpdates (snd (executeCommand neverStopped
                       (repeatOf "b" 2 [forward "a" 1; turnRight "c" 90; forward "d" 1])
                       initialState (idle sampleProgram)))) = 6%nat.
Proof.
  exact (proj2 (proj2 (proj2 (proj2 (proj2
    (path_and_pose_publication neverStopped
       (repeatOf "b" 2 [forward "a" 1; turnRight "c" 90; forward "d" 1])
       initialState (idle sampleProgram))))))
    eq_refl (fun _ => eq_refl)).
Defined.

(** C10: the flag is read when a command is entered and not again before
    its effect.  When Stop is pressed during the wait of a movement or a
    turn, the command still computes the pose it would have computed,
    publishes it (and, for a movement, appends the path sample); the flag
    is then set and the rest of the sequence is not run. *)
Theorem stop_during_wait_completes_command sd cmd rest r w :
  stopRef w = false ->
  sd (timers w) = true ->
  type cmd <> REPEAT ->
  let r' := fst (executeCommand sd cmd r w) in
  let w' := snd (executeCommand sd cmd r w) in
  r' = fst (executeCommand neverStopped cmd r w) /\
  r' = match type cmd with
       | FORWARD | BACKWARD => moved cmd r
       | _ => turned cmd r
       end /\
  path w' = path (snd (executeCommand neverStopped cmd r w)) /\
  path w' = match type cmd with
            | FORWARD | BACKWARD => path w ++ [mkPoint (x r') (y r')]
            | _ => path w
            end /\
  poseUpdates w' = poseUpdates w ++ [r'] /\
  robotState w' = r' /\
  stopRef w' = true /\
  runSequence sd rest r' w' = (r', w').
Proof.
  intros Hs Hsd Ht. cbv zeta.
  assert (Hstop : stopRef (snd (sleep sd w)) = true).
  { rewrite sleep_stopRef, Hsd. reflexivity. }
  destruct (type cmd) eqn:E; try contradiction.
  1,2: rewrite !executeCommand_move by (auto || exact Hs);
       cbn [fst snd path poseUpdates robotState stopRef setPath setRobotState];
       rewrite !sleep_path, sleep_poseUpdates;
       repeat (split; [reflexivity || exact Hstop|]).
  3,4: rewrite !executeCommand_turn by (auto || exact Hs);
       cbn [fst snd path poseUpdates robotState stopRef setPath setRobotState];
       rewrite !sleep_path, sleep_poseUpdates;
       repeat (split; [reflexivity || exact Hstop|]).
  all: apply runSequence_stopped; exact Hstop.
Qed.

Lemma stop_during_wait_completes_command_witness :
  length (path (snd (executeCommand stopAtFirstCommand (forward "a" 1) initialState
                       (tick (idle [forward "a" 1; forward "b" 1]))))) = 2%nat /\
  stopRef (snd (executeCommand stopAtFirstCommand (forward "a" 1) initialState
                  (tick (idle [forward "a" 1; forward "b" 1])))) = true.
Proof.
  pose proof (stop_during_wait_completes_command stopAtFirstCommand
                (forward "a" 1) [forward "b" 1] initialState
                (tick (idle [forward "a" 1; forward "b" 1]))
                eq_refl eq_refl ltac:(discriminate)) as H.
  cbv zeta in H. destruct H as (_ & _ & _ & Hp & _ & _ & Hs & _).
  split; [rewrite Hp; reflexivity | exact Hs].
Defined.

(** ** Run controller *)

(** The part of the guard that [handleRun] has: with an empty program it
    does nothing. *)
Lemma handleRun_empty_noop sd w :
  commands w = [] -> handleRun sd w = (tt, w).
Proof. intros H. rewrite handleRun_eq, H. reflexivity. Qed.

(** C3: a start while a run is in progress is not a no-op.  [handleRun]
    looks at the length of the program only, and the view shows Run again
    as soon as Stop has been pressed, while the stopped run is still in
    its wait.  With a program of two moves: Run is pressed and the start
    delay elapses; Stop is pressed during the wait of the first move; Run
    is pressed again before that wait is over.  The second start resets
    the drawing, clears the flag and leaves a run of its own pending.  The
    stopped run finds the flag clear and goes on to its second move; when
    it ends it clears [isPlaying] while the second run is still pending;
    in the end both runs have drawn, five points where one run draws
    three. *)
Theorem start_during_a_run_is_not_a_noop :
  let a := forward "a" 1 in
  let b := forward "b" 1 in
  let r1 := moved a initialState in
  let r2 := moved b r1 in
  let point r := mkPoint (x r) (y r) in
  let started := fire (pressHeaderControl (mkMachine (idle [a; b]) [])) in
  let stopped := pressHeaderControl started in
  let again := pressHeaderControl stopped in
  let final := fire (fire (fire (fire (fire again)))) in
  (* the run waits in its first move, and the view shows Stop *)
  pending started =
    [AnimationDelay a initialState [InSequence [b]; InHandleRun]] /\
  headerControl (world started) = StopButton /\
  (* Stop: the run is still pending, and the view shows Run *)
  pending stopped = pending started /\
  stopRef (world stopped) = true /\
  headerControl (world stopped) = RunButton false /\
  (* Run: a second run is pending and the flag is clear *)
  again <> stopped /\
  pending again = pending started ++ [StartDelay [a; b]] /\
  stopRef (world again) = false /\
  isPlaying (world again) = true /\
  (* the stopped run goes on to its second move *)
  pending (fire again) =
    [StartDelay [a; b]; AnimationDelay b r1 [InSequence []; InHandleRun]] /\
  (* it ends and the view shows Run, with the second run pending *)
  pending (fire (fire (fire again))) =
    [AnimationDelay a initialState [InSequence [b]; InHandleRun]] /\
  headerControl (world (fire (fire (fire again)))) = RunButton false /\
  (* both runs have drawn *)
  pending final = [] /\
  path (world final) = [origin; point r1; point r2; point r1; point r2] /\
  path (snd (handleRun neverStopped (idle [a; b]))) =
    [origin; point r1; point r2].
Proof.
  cbv zeta. repeat split; try reflexivity.
  intros H. apply (f_equal (fun m => length (pending m))) in H.
  discriminate H.
Qed.

(** C4, as stated, fails: the path of a cancelled run need not be a strict
    prefix.  With a move followed by a turn, stopping during the wait of
    the move halts the run before the turn (one pose update fewer), and the
    path is the whole path of the uninterrupted run. *)
Lemma cancelled_path_not_strict_prefix :
  let program := [forward "a" 1; turnRight "b" 90] in
  let cancelled := snd (handleRun stopAtFirstCommand (idle program)) in
  let full := snd (handleRun neverStopped (idle program)) in
  stopRef cancelled = true /\
  length (poseUpdates cancelled) = 2%nat /\
  length (poseUpdates full) = 3%nat /\
  path cancelled = path full /\
  ~ strictPrefix (path cancelled) (path full).
Proof.
  cbv -[Rplus Rmult Rminus Rdiv Ropp Rinv IZR cos sin PI toRad prefix].
  repeat split; try reflexivity.
  intros [_ Hne]. apply Hne. reflexivity.
Qed.

(** C4, amended: whatever the moment Stop is pressed, the path of the run
    is a prefix, possibly the whole, of the path of the uninterrupted run
    of the same program; and once the flag is set neither a command, nor a
    sequence, nor the loop of a [REPEAT] around them runs anything more. *)
Theorem cancelled_path_is_prefix sd w :
  path (snd (handleRun sd w)) `prefix_of`
    path (snd (handleRun neverStopped w)) /\
  (forall cmd cs n r w',
     stopRef w' = true ->
     executeCommand sd cmd r w' = (r, w') /\
     runSequence sd cs r w' = (r, w') /\
     repeatLoop n (runSequence sd cs) r w' = (r, w')).
Proof.
  split; [apply handleRun_prefix|]. intros cmd cs n r w' Hs.
  split; [apply executeCommand_stopped, Hs|].
  split; [apply runSequence_stopped, Hs | apply repeatLoop_stopped, Hs].
Qed.

Lemma cancelled_path_is_prefix_witness :
  path (snd (handleRun stopAtFirstCommand (idle sampleProgram))) `prefix_of`
    path (snd (handleRun neverStopped (idle sampleProgram))) /\
  runSequence stopAtFirstCommand sampleProgram initialState
    (handleStop (idle sampleProgram)) =
  (initialState, handleStop (idle sampleProgram)).
Proof.
  pose proof (cancelled_path_is_prefix stopAtFirstCommand (idle sampleProgram))
    as [Hp Hstop].
  split; [exact Hp|].
  exact (proj1 (proj2 (Hstop (forward "a" 2) sampleProgram 3%nat initialState
                         (handleStop (idle sampleProgram)) eq_refl))).
Defined.

(* ===================================================================== *)
(** * Further properties of the command tree *)
(* ===================================================================== *)

Section TreeShape.

Lemma ids_cmd_eq c :
  ids_cmd c = id c :: match children c with
                      | Some cs => ids cs
                      | None => []
                      end.
Proof. destruct c as [i t v [cs|]]; reflexivity. Qed.

Lemma ids_cons c l : ids (c :: l) = ids_cmd c ++ ids l.
Proof. reflexivity. Qed.

Lemma ids_app l1 l2 : ids (l1 ++ l2) = ids l1 ++ ids l2.
Proof. apply flat_map_app. Qed.

Lemma nodes_cmd_eq c :
  nodes_cmd c = c :: match children c with
                     | Some cs => nodes cs
                     | None => []
                     end.
Proof. destruct c as [i t v [cs|]]; reflexivity. Qed.

Lemma nodes_cons c l : nodes (c :: l) = nodes_cmd c ++ nodes l.
Proof. reflexivity. Qed.

Lemma in_nodes_top c l : In c l -> In c (nodes l).
Proof.
  intros H. apply in_flat_map. exists c. split; [exact H|].
  rewrite nodes_cmd_eq. left. reflexivity.
Qed.

(** The nodes below a node of a tree are nodes of the tree. *)
Lemma nodes_below_step l :
  Forall (fun k => forall c d, In c (nodes_cmd k) -> In d (nodes_cmd c) ->
                               In d (nodes_cmd k)) l ->
  forall c d, In c (nodes l) -> In d (nodes_cmd c) -> In d (nodes l).
Proof.
  induction 1 as [|k l Hk _ IHl]; intros c d Hc Hd; [contradiction|].
  rewrite nodes_cons in *. apply in_app_iff in Hc. apply in_app_iff.
  destruct Hc as [Hc|Hc]; [left; exact (Hk c d Hc Hd) | right; eauto].
Qed.

Lemma nodes_cmd_below k : forall c d,
  In c (nodes_cmd k) -> In d (nodes_cmd c) -> In d (nodes_cmd k).
Proof.
  induction k as [i t v | i t v cs IH] using Command_tree_ind; intros c d Hc Hd.
  - destruct Hc as [<-|[]]. exact Hd.
  - rewrite nodes_cmd_eq in Hc. cbn [children] in Hc.
    destruct Hc as [<-|Hc]; [exact Hd|].
    rewrite nodes_cmd_eq. cbn [children]. right.
    exact (nodes_below_step cs IH c d Hc Hd).
Qed.

Lemma nodes_below l c d :
  In c (nodes l) -> In d (nodes_cmd c) -> In d (nodes l).
Proof.
  apply nodes_below_step, Forall_forall. intros k _. apply nodes_cmd_below.
Qed.

Lemma in_nodes_child l c cs d :
  In c (nodes l) -> children c = Some cs -> In d cs -> In d (nodes l).
Proof.
  intros Hc Hcs Hd. apply (nodes_below l c d Hc).
  rewrite nodes_cmd_eq, Hcs. right. apply in_nodes_top, Hd.
Qed.

(** The identifiers of a tree are those of its nodes. *)
Lemma ids_nodes_step l :
  Forall (fun k => ids_cmd k = map id (nodes_cmd k)) l ->
  ids l = map id (nodes l).
Proof.
  induction 1 as [|k l Hk _ IHl]; [reflexivity|].
  rewrite ids_cons, nodes_cons, map_app, Hk, IHl. reflexivity.
Qed.

Lemma ids_cmd_nodes k : ids_cmd k = map id (nodes_cmd k).
Proof.
  induction k as [i t v | i t v cs IH] using Command_tree_ind;
    rewrite ids_cmd_eq, nodes_cmd_eq; cbn [children id map]; [reflexivity|].
  rewrite (ids_nodes_step cs IH). reflexivity.
Qed.

Lemma ids_nodes l : ids l = map id (nodes l).
Proof.
  apply ids_nodes_step, Forall_forall. intros k _. apply ids_cmd_nodes.
Qed.

Lemma in_nodes_ids l c : In c (nodes l) -> In (id c) (ids l).
Proof. rewrite ids_nodes. apply in_map. Qed.

(** ** [findById] *)

Lemma findById_Some_step fid l :
  Forall (fun k => forall found, findById_cmd fid k = Some found ->
                     id found = fid /\ In found (nodes_cmd k)) l ->
  forall found, findById l fid = Some found ->
    id found = fid /\ In found (nodes l).
Proof.
  induction 1 as [|k l Hk _ IHl]; intros found Hf; [discriminate|].
  cbn [findById] in Hf. rewrite nodes_cons.
  destruct (findById_cmd fid k) as [f|] eqn:E.
  - injection Hf as <-. destruct (Hk f eq_refl) as [? ?].
    split; [assumption | apply in_app_iff; left; assumption].
  - destruct (IHl found Hf) as [? ?].
    split; [assumption | apply in_app_iff; right; assumption].
Qed.

Lemma findById_cmd_Some fid k : forall found,
  findById_cmd fid k = Some found ->
  id found = fid /\ In found (nodes_cmd k).
Proof.
  induction k as [i t v | i t v cs IH] using Command_tree_ind; intros found;
    rewrite findById_cmd_eq, nodes_cmd_eq; cbn [id children];
    destruct (String.eqb_spec i fid) as [E|Hne]; intros Hf;
    try discriminate;
    try (injection Hf as <-; split; [exact E | left; reflexivity]).
  destruct (findById_Some_step fid cs IH found Hf) as [? ?].
  split; [assumption | right; assumption].
Qed.

Lemma findById_Some fid l found :
  findById l fid = Some found -> id found = fid /\ In found (nodes l).
Proof.
  apply findById_Some_step, Forall_forall. intros k _.
  apply findById_cmd_Some.
Qed.

(** With pairwise different identifiers, a node is found by its own. *)
Lemma findById_unique_step l :
  Forall (fun k => NoDup (ids_cmd k) -> forall c, In c (nodes_cmd k) ->
                   findById_cmd (id c) k = Some c) l ->
  NoDup (ids l) -> forall c, In c (nodes l) -> findById l (id c) = Some c.
Proof.
  induction 1 as [|k l Hk _ IHl]; intros Hnd c Hc; [contradiction|].
  rewrite ids_cons in Hnd. apply NoDup_app in Hnd as (Hk' & Hdis & Hl').
  rewrite nodes_cons in Hc. apply in_app_iff in Hc. cbn [findById].
  destruct Hc as [Hc|Hc].
  - rewrite (Hk Hk' c Hc). reflexivity.
  - assert (Hn : findById_cmd (id c) k = None).
    { apply findById_cmd_None. intros Hin.
      apply (Hdis (id c)); [apply list_elem_of_In, Hin|].
      apply list_elem_of_In, in_nodes_ids, Hc. }
    rewrite Hn. exact (IHl Hl' c Hc).
Qed.

Lemma findById_cmd_unique k :
  NoDup (ids_cmd k) -> forall c, In c (nodes_cmd k) ->
  findById_cmd (id c) k = Some c.
Proof.
  induction k as [i t v | i t v cs IH] using Command_tree_ind; intros Hnd c;
    rewrite findById_cmd_eq, nodes_cmd_eq; cbn [id children]; intros Hc.
  - destruct Hc as [<-|[]]. cbn [id]. rewrite String.eqb_refl. reflexivity.
  - destruct Hc as [<-|Hc]; [cbn [id]; rewrite String.eqb_refl; reflexivity|].
    rewrite ids_cmd_eq in Hnd. cbn [id children] in Hnd.
    apply NoDup_cons in Hnd as [Hi Hcs].
    destruct (String.eqb_spec i (id c)) as [E|_].
    + exfalso. apply Hi. rewrite E. apply list_elem_of_In, in_nodes_ids, Hc.
    + exact (findById_unique_step cs IH Hcs c Hc).
Qed.

Lemma findById_unique l c :
  NoDup (ids l) -> In c (nodes l) -> findById l (id c) = Some c.
Proof.
  intros Hnd. revert c. apply findById_unique_step; [|exact Hnd].
  apply Forall_forall. intros k _. apply findById_cmd_unique.
Qed.

End TreeShape.

Section RemoveFacts.
Variable rid : string.

Lemma recursiveFilter_cmd_id c : id (recursiveFilter_cmd rid c) = id c.
Proof. rewrite recursiveFilter_cmd_eq. reflexivity. Qed.

Lemma recursiveFilter_cons k l :
  recursiveFilter rid (k :: l) =
  if String.eqb (id k) rid then recursiveFilter rid l
  else recursiveFilter_cmd rid k :: recursiveFilter rid l.
Proof. cbn [recursiveFilter]. destruct (String.eqb (id k) rid); reflexivity. Qed.

Lemma ids_recursiveFilter_cmd c :
  ids_cmd (recursiveFilter_cmd rid c) =
  id c :: match children c with
          | Some cs => ids (recursiveFilter rid cs)
          | None => []
          end.
Proof.
  rewrite recursiveFilter_cmd_eq, ids_cmd_eq.
  destruct c as [i t v [cs|]]; reflexivity.
Qed.

(** Nothing is added, the order is kept, and no node named [rid] is left. *)
Lemma recursiveFilter_ids_step l :
  Forall (fun k => id k <> rid ->
            ids_cmd (recursiveFilter_cmd rid k) `sublist_of` ids_cmd k /\
            ~ In rid (ids_cmd (recursiveFilter_cmd rid k))) l ->
  ids (recursiveFilter rid l) `sublist_of` ids l /\
  ~ In rid (ids (recursiveFilter rid l)).
Proof.
  induction 1 as [|k l Hk _ [IH1 IH2]]; [split; [reflexivity | intros []]|].
  rewrite recursiveFilter_cons, ids_cons.
  destruct (String.eqb_spec (id k) rid) as [E|Hne].
  - split; [apply sublist_inserts_l, IH1 | exact IH2].
  - destruct (Hk Hne) as [H1 H2]. rewrite ids_cons. split.
    + apply sublist_app; assumption.
    + rewrite in_app_iff. tauto.
Qed.

Lemma recursiveFilter_cmd_ids k :
  id k <> rid ->
  ids_cmd (recursiveFilter_cmd rid k) `sublist_of` ids_cmd k /\
  ~ In rid (ids_cmd (recursiveFilter_cmd rid k)).
Proof.
  induction k as [i t v | i t v cs IH] using Command_tree_ind;
    rewrite ids_recursiveFilter_cmd, ids_cmd_eq; cbn [id children]; intros Hne.
  - split; [reflexivity | intros [?|[]]; contradiction].
  - destruct (recursiveFilter_ids_step cs) as [H1 H2].
    { eapply Forall_impl; [exact IH|]. intros k Hk. exact Hk. }
    split; [apply sublist_skip, H1 | intros [?|?]; contradiction].
Qed.

Lemma recursiveFilter_ids l :
  ids (recursiveFilter rid l) `sublist_of` ids l /\
  ~ In rid (ids (recursiveFilter rid l)).
Proof.
  apply recursiveFilter_ids_step, Forall_forall. intros k _.
  apply recursiveFilter_cmd_ids.
Qed.

(** The data-model invariant is kept. *)
Lemma recursiveFilter_wf_step l :
  Forall (fun k => onlyRepeatHasChildren_cmd k = true ->
            onlyRepeatHasChildren_cmd (recursiveFilter_cmd rid k) = true) l ->
  onlyRepeatHasChildren l = true ->
  onlyRepeatHasChildren (recursiveFilter rid l) = true.
Proof.
  unfold onlyRepeatHasChildren.
  induction 1 as [|k l Hk _ IHl]; [reflexivity|].
  cbn [forallb]. intros Hw. apply andb_prop in Hw as [Hw1 Hw2].
  rewrite recursiveFilter_cons. destruct (String.eqb (id k) rid); [auto|].
  cbn [forallb]. rewrite Hk, IHl by assumption. reflexivity.
Qed.

Lemma recursiveFilter_cmd_wf k :
  onlyRepeatHasChildren_cmd k = true ->
  onlyRepeatHasChildren_cmd (recursiveFilter_cmd rid k) = true.
Proof.
  induction k as [i t v | i t v cs IH] using Command_tree_ind;
    rewrite recursiveFilter_cmd_eq; cbn; [reflexivity|].
  intros Hw. apply andb_prop in Hw as [Ht Hcs]. rewrite Ht. cbn [andb].
  exact (recursiveFilter_wf_step cs IH Hcs).
Qed.

Lemma recursiveFilter_wf l :
  onlyRepeatHasChildren l = true ->
  onlyRepeatHasChildren (recursiveFilter rid l) = true.
Proof.
  apply recursiveFilter_wf_step, Forall_forall. intros k _.
  apply recursiveFilter_cmd_wf.
Qed.

(** With pairwise different identifiers, what is removed is exactly the
    subtree of the node named [rid]. *)
Lemma recursiveFilter_perm_step l :
  Forall (fun k => NoDup (ids_cmd k) -> id k <> rid -> forall c,
            findById_cmd rid k = Some c ->
            ids_cmd k ≡ₚ ids_cmd c ++ ids_cmd (recursiveFilter_cmd rid k)) l ->
  NoDup (ids l) -> forall c, findById l rid = Some c ->
  ids l ≡ₚ ids_cmd c ++ ids (recursiveFilter rid l).
Proof.
  induction 1 as [|k l Hk _ IHl]; intros Hnd c Hf; [discriminate|].
  rewrite ids_cons in *. apply NoDup_app in Hnd as (Hk' & Hdis & Hl').
  cbn [findById] in Hf. rewrite recursiveFilter_cons.
  destruct (String.eqb_spec (id k) rid) as [E|Hne].
  - rewrite findById_cmd_eq in Hf.
    destruct (String.eqb_spec (id k) rid); [|contradiction].
    injection Hf as <-. rewrite recursiveFilter_absent; [reflexivity|].
    intros Hin. apply (Hdis rid); [|apply list_elem_of_In, Hin].
    apply list_elem_of_In. rewrite ids_cmd_eq. left. exact E.
  - rewrite ids_cons. destruct (findById_cmd rid k) as [f|] eqn:Ef.
    + injection Hf as <-. rewrite (recursiveFilter_absent rid l).
      * rewrite (Hk Hk' Hne f eq_refl) at 1. rewrite app_assoc. reflexivity.
      * intros Hin. apply (Hdis rid); [|apply list_elem_of_In, Hin].
        apply list_elem_of_In.
        destruct (findById_cmd_Some rid k f Ef) as [<- Hn].
        rewrite ids_cmd_nodes. apply in_map, Hn.
    + rewrite recursiveFilter_cmd_absent by (apply findById_cmd_None, Ef).
      rewrite (IHl Hl' c Hf) at 1.
      rewrite !app_assoc. apply Permutation_app_tail, Permutation_app_comm.
Qed.

Lemma recursiveFilter_cmd_perm k :
  NoDup (ids_cmd k) -> id k <> rid -> forall c,
  findById_cmd rid k = Some c ->
  ids_cmd k ≡ₚ ids_cmd c ++ ids_cmd (recursiveFilter_cmd rid k).
Proof.
  induction k as [i t v | i t v cs IH] using Command_tree_ind;
    intros Hnd Hne c; rewrite findById_cmd_eq, ids_recursiveFilter_cmd;
    rewrite ids_cmd_eq in *; cbn [id children] in *;
    (destruct (String.eqb_spec i rid); [contradiction|]); [discriminate|].
  intros Hf. apply NoDup_cons in Hnd as [_ Hcs].
  rewrite (recursiveFilter_perm_step cs IH Hcs c Hf) at 1.
  apply Permutation_middle.
Qed.

Lemma recursiveFilter_perm l c :
  NoDup (ids l) -> findById l rid = Some c ->
  ids l ≡ₚ ids_cmd c ++ ids (recursiveFilter rid l).
Proof.
  intros Hnd. revert c. apply recursiveFilter_perm_step; [|exact Hnd].
  apply Forall_forall. intros k _. apply recursiveFilter_cmd_perm.
Qed.

End RemoveFacts.

(** Removals commute. *)
Section RemoveCommute.
Variables a b : string.

Lemma recursiveFilter_comm_step l :
  Forall (fun k => recursiveFilter_cmd a (recursiveFilter_cmd b k) =
                   recursiveFilter_cmd b (recursiveFilter_cmd a k)) l ->
  recursiveFilter a (recursiveFilter b l) =
  recursiveFilter b (recursiveFilter a l).
Proof.
  induction 1 as [|k l Hk _ IHl]; [reflexivity|].
  rewrite (recursiveFilter_cons b k l), (recursiveFilter_cons a k l).
  destruct (String.eqb (id k) b) eqn:Eb; destruct (String.eqb (id k) a) eqn:Ea;
    rewrite ?recursiveFilter_cons, ?recursiveFilter_cmd_id, ?Ea, ?Eb;
    rewrite ?IHl, ?Hk; reflexivity.
Qed.

Lemma recursiveFilter_cmd_comm k :
  recursiveFilter_cmd a (recursiveFilter_cmd b k) =
  recursiveFilter_cmd b (recursiveFilter_cmd a k).
Proof.
  induction k as [i t v | i t v cs IH] using Command_tree_ind;
    rewrite !recursiveFilter_cmd_eq; cbn; [reflexivity|].
  unfold withChildren; cbn. rewrite (recursiveFilter_comm_step cs IH).
  reflexivity.
Qed.

Lemma recursiveFilter_comm l :
  recursiveFilter a (recursiveFilter b l) =
  recursiveFilter b (recursiveFilter a l).
Proof.
  apply recursiveFilter_comm_step, Forall_forall. intros k _.
  apply recursiveFilter_cmd_comm.
Qed.

End RemoveCommute.

(** ** What depends on the skeleton of a tree only *)

Section SkeletonFacts.

Lemma skeleton_eq c :
  skeleton c = mkCommand (id c) (type c) 0
                 (option_map (map skeleton) (children c)).
Proof. destruct c as [i t v [cs|]]; reflexivity. Qed.

Lemma ids_skeleton_step l :
  Forall (fun k => ids_cmd (skeleton k) = ids_cmd k) l ->
  ids (map skeleton l) = ids l.
Proof.
  induction 1 as [|k l Hk _ IHl]; [reflexivity|].
  cbn [map]. rewrite !ids_cons, Hk, IHl. reflexivity.
Qed.

Lemma ids_cmd_skeleton k : ids_cmd (skeleton k) = ids_cmd k.
Proof.
  induction k as [i t v | i t v cs IH] using Command_tree_ind;
    rewrite skeleton_eq, !ids_cmd_eq; cbn [id children option_map];
    [reflexivity|].
  rewrite (ids_skeleton_step cs IH). reflexivity.
Qed.

Lemma ids_skeleton l : ids (map skeleton l) = ids l.
Proof.
  apply ids_skeleton_step, Forall_forall. intros k _. apply ids_cmd_skeleton.
Qed.

Lemma wf_skeleton_step l :
  Forall (fun k => onlyRepeatHasChildren_cmd (skeleton k) =
                   onlyRepeatHasChildren_cmd k) l ->
  onlyRepeatHasChildren (map skeleton l) = onlyRepeatHasChildren l.
Proof.
  unfold onlyRepeatHasChildren.
  induction 1 as [|k l Hk _ IHl]; [reflexivity|].
  cbn [map forallb]. rewrite Hk, IHl. reflexivity.
Qed.

Lemma wf_cmd_skeleton k :
  onlyRepeatHasChildren_cmd (skeleton k) = onlyRepeatHasChildren_cmd k.
Proof.
  induction k as [i t v | i t v cs IH] using Command_tree_ind;
    rewrite skeleton_eq; cbn; [reflexivity|].
  f_equal. exact (wf_skeleton_step cs IH).
Qed.

Lemma wf_skeleton l :
  onlyRepeatHasChildren (map skeleton l) = onlyRepeatHasChildren l.
Proof.
  apply wf_skeleton_step, Forall_forall. intros k _. apply wf_cmd_skeleton.
Qed.

Lemma findById_skeleton_step fid l :
  Forall (fun k => findById_cmd fid (skeleton k) =
                   option_map skeleton (findById_cmd fid k)) l ->
  findById (map skeleton l) fid = option_map skeleton (findById l fid).
Proof.
  induction 1 as [|k l Hk _ IHl]; [reflexivity|].
  cbn [map findById]. rewrite Hk.
  destruct (findById_cmd fid k); [reflexivity | exact IHl].
Qed.

Lemma findById_cmd_skeleton fid k :
  findById_cmd fid (skeleton k) = option_map skeleton (findById_cmd fid k).
Proof.
  induction k as [i t v | i t v cs IH] using Command_tree_ind;
    rewrite !findById_cmd_eq, skeleton_eq; cbn [id children option_map];
    destruct (String.eqb i fid); try reflexivity.
  exact (findById_skeleton_step fid cs IH).
Qed.

Lemma findById_skeleton fid l :
  findById (map skeleton l) fid = option_map skeleton (findById l fid).
Proof.
  apply findById_skeleton_step, Forall_forall. intros k _.
  apply findById_cmd_skeleton.
Qed.

Lemma resolvesToRepeat_skeleton l1 l2 cid :
  map skeleton l1 = map skeleton l2 ->
  resolvesToRepeat l1 cid = resolvesToRepeat l2 cid.
Proof.
  intros E. unfold resolvesToRepeat.
  pose proof (findById_skeleton cid l1) as H1.
  pose proof (findById_skeleton cid l2) as H2.
  rewrite E in H1. rewrite H1 in H2.
  destruct (findById l1 cid) as [c1|], (findById l2 cid) as [c2|];
    try discriminate; [|reflexivity].
  injection H2 as H2. apply (f_equal type) in H2.
  rewrite !skeleton_eq in H2. cbn in H2. rewrite H2. reflexivity.
Qed.

End SkeletonFacts.

(** ** [handleUpdateCommand] on values *)

Section UpdateValueFacts.
Variable uid : string.

Lemma recursiveUpdate_cmd_eq v c :
  recursiveUpdate_cmd uid v c =
  if String.eqb (id c) uid then withValue c v
  else match children c with
       | Some cs => withChildren c (Some (updateValue cs uid v))
       | None => c
       end.
Proof. destruct c as [i t u [cs|]]; reflexivity. Qed.

Lemma updateValue_skeleton_step v l :
  Forall (fun k => skeleton (recursiveUpdate_cmd uid v k) = skeleton k) l ->
  map skeleton (updateValue l uid v) = map skeleton l.
Proof.
  unfold updateValue.
  induction 1 as [|k l Hk _ IHl]; [reflexivity|].
  cbn [map]. rewrite Hk, IHl. reflexivity.
Qed.

Lemma recursiveUpdate_cmd_skeleton v k :
  skeleton (recursiveUpdate_cmd uid v k) = skeleton k.
Proof.
  induction k as [i t u | i t u cs IH] using Command_tree_ind;
    rewrite recursiveUpdate_cmd_eq; cbn [id children];
    destruct (String.eqb i uid); try reflexivity.
  rewrite !skeleton_eq. cbn [withChildren id type children option_map].
  rewrite (updateValue_skeleton_step v cs IH). reflexivity.
Qed.

Lemma updateValue_skeleton v l :
  map skeleton (updateValue l uid v) = map skeleton l.
Proof.
  apply updateValue_skeleton_step, Forall_forall. intros k _.
  apply recursiveUpdate_cmd_skeleton.
Qed.

Lemma updateValue_ids v l : ids (updateValue l uid v) = ids l.
Proof. rewrite <- ids_skeleton, updateValue_skeleton. apply ids_skeleton. Qed.

Lemma updateValue_wf v l :
  onlyRepeatHasChildren (updateValue l uid v) = onlyRepeatHasChildren l.
Proof. rewrite <- wf_skeleton, updateValue_skeleton. apply wf_skeleton. Qed.

(** Looking up the updated identifier gives the node with the new value. *)
Lemma updateValue_find_step v l :
  Forall (fun k => findById_cmd uid (recursiveUpdate_cmd uid v k) =
                   option_map (fun c => withValue c v) (findById_cmd uid k)) l ->
  findById (updateValue l uid v) uid =
  option_map (fun c => withValue c v) (findById l uid).
Proof.
  unfold updateValue.
  induction 1 as [|k l Hk _ IHl]; [reflexivity|].
  cbn [map findById]. rewrite Hk.
  destruct (findById_cmd uid k); [reflexivity | exact IHl].
Qed.

Lemma recursiveUpdate_cmd_find v k :
  findById_cmd uid (recursiveUpdate_cmd uid v k) =
  option_map (fun c => withValue c v) (findById_cmd uid k).
Proof.
  induction k as [i t u | i t u cs IH] using Command_tree_ind;
    rewrite recursiveUpdate_cmd_eq, (findById_cmd_eq uid (mkCommand _ _ _ _));
    cbn [id children]; destruct (String.eqb i uid) eqn:E;
    rewrite findById_cmd_eq; cbn [withValue withChildren id children];
    rewrite E; try reflexivity.
  exact (updateValue_find_step v cs IH).
Qed.

Lemma updateValue_find v l :
  findById (updateValue l uid v) uid =
  option_map (fun c => withValue c v) (findById l uid).
Proof.
  apply updateValue_find_step, Forall_forall. intros k _.
  apply recursiveUpdate_cmd_find.
Qed.

(** An identifier that occurs nowhere: nothing changes. *)
Lemma updateValue_absent_step v l :
  Forall (fun k => ~ In uid (ids_cmd k) -> recursiveUpdate_cmd uid v k = k) l ->
  ~ In uid (ids l) -> updateValue l uid v = l.
Proof.
  unfold updateValue.
  induction 1 as [|k l Hk _ IHl]; [reflexivity|].
  rewrite in_ids_cons. intros Hn. cbn [map].
  rewrite Hk, IHl by tauto. reflexivity.
Qed.

Lemma recursiveUpdate_cmd_absent v k :
  ~ In uid (ids_cmd k) -> recursiveUpdate_cmd uid v k = k.
Proof.
  induction k as [i t u | i t u cs IH] using Command_tree_ind;
    rewrite recursiveUpdate_cmd_eq, in_ids_cmd; cbn [id children]; intros Hn;
    destruct (String.eqb_spec i uid) as [->|Hne]; try tauto.
  rewrite (updateValue_absent_step v cs IH) by tauto. reflexivity.
Qed.

Lemma updateValue_absent v l :
  ~ In uid (ids l) -> updateValue l uid v = l.
Proof.
  apply updateValue_absent_step, Forall_forall. intros k _.
  apply recursiveUpdate_cmd_absent.
Qed.

(** The last value written is the one that stays. *)
Lemma updateValue_twice_step v1 v2 l :
  Forall (fun k => recursiveUpdate_cmd uid v2 (recursiveUpdate_cmd uid v1 k) =
                   recursiveUpdate_cmd uid v2 k) l ->
  updateValue (updateValue l uid v1) uid v2 = updateValue l uid v2.
Proof.
  unfold updateValue.
  induction 1 as [|k l Hk _ IHl]; [reflexivity|].
  cbn [map]. rewrite Hk, IHl. reflexivity.
Qed.

Lemma recursiveUpdate_cmd_twice v1 v2 k :
  recursiveUpdate_cmd uid v2 (recursiveUpdate_cmd uid v1 k) =
  recursiveUpdate_cmd uid v2 k.
Proof.
  induction k as [i t u | i t u cs IH] using Command_tree_ind;
    rewrite (recursiveUpdate_cmd_eq v1); cbn [id children];
    destruct (String.eqb i uid) eqn:E;
    rewrite !recursiveUpdate_cmd_eq; cbn [withValue withChildren id children];
    rewrite E; try reflexivity.
  rewrite (updateValue_twice_step v1 v2 cs IH). reflexivity.
Qed.

Lemma updateValue_twice v1 v2 l :
  updateValue (updateValue l uid v1) uid v2 = updateValue l uid v2.
Proof.
  apply updateValue_twice_step, Forall_forall. intros k _.
  apply recursiveUpdate_cmd_twice.
Qed.

End UpdateValueFacts.

(** ** [updateTree] and [insert] *)

Section UpdateTreeFacts.
Variable cid : string.
Variable updateFn : list Command -> list Command.

Lemma updateTree_cmd_eq k :
  updateTree_cmd cid updateFn k =
  if String.eqb (id k) cid then
    withChildren k (Some (updateFn (default [] (children k))))
  else match children k with
       | Some cs => withChildren k (Some (updateTree cs (Some cid) updateFn))
       | None => k
       end.
Proof. destruct k as [i t v [cs|]]; reflexivity. Qed.

(** Looking up the container after the edit gives the container with the
    edited list of children. *)
Lemma updateTree_find_step l :
  Forall (fun k => findById_cmd cid (updateTree_cmd cid updateFn k) =
            option_map (fun c => withChildren c
                                   (Some (updateFn (default [] (children c)))))
                       (findById_cmd cid k)) l ->
  findById (updateTree l (Some cid) updateFn) cid =
  option_map (fun c => withChildren c
                         (Some (updateFn (default [] (children c)))))
             (findById l cid).
Proof.
  unfold updateTree.
  induction 1 as [|k l Hk _ IHl]; [reflexivity|].
  cbn [map findById]. rewrite Hk.
  destruct (findById_cmd cid k); [reflexivity | exact IHl].
Qed.

Lemma updateTree_cmd_find k :
  findById_cmd cid (updateTree_cmd cid updateFn k) =
  option_map (fun c => withChildren c
                         (Some (updateFn (default [] (children c)))))
             (findById_cmd cid k).
Proof.
  induction k as [i t v | i t v cs IH] using Command_tree_ind;
    rewrite updateTree_cmd_eq, (findById_cmd_eq cid (mkCommand _ _ _ _));
    cbn [id children]; destruct (String.eqb i cid) eqn:E;
    rewrite findById_cmd_eq; cbn [withChildren id children];
    rewrite E; try reflexivity.
  exact (updateTree_find_step cs IH).
Qed.

Lemma updateTree_find l :
  findById (updateTree l (Some cid) updateFn) cid =
  option_map (fun c => withChildren c
                         (Some (updateFn (default [] (children c)))))
             (findById l cid).
Proof.
  apply updateTree_find_step, Forall_forall. intros k _.
  apply updateTree_cmd_find.
Qed.

End UpdateTreeFacts.

Section InsertFacts.
Variable cid : string.
Variable cmd : Command.

Let append : list Command -> list Command := fun lst => lst ++ [cmd].

Lemma insert_absent l : ~ In cid (ids l) -> map (updateTree_cmd cid append) l = l.
Proof. exact (updateTree_absent cid append l). Qed.

Lemma ids_append l : ids (append l) = ids l ++ ids_cmd cmd.
Proof. unfold append. rewrite ids_app. cbn. rewrite app_nil_r. reflexivity. Qed.

(** With pairwise different identifiers, the identifiers after an insert
    into an existing container are those before and those of the command. *)
Lemma insert_ids_step l :
  Forall (fun k => NoDup (ids_cmd k) -> In cid (ids_cmd k) ->
            ids_cmd (updateTree_cmd cid append k) ≡ₚ ids_cmd cmd ++ ids_cmd k) l ->
  NoDup (ids l) -> In cid (ids l) ->
  ids (map (updateTree_cmd cid append) l) ≡ₚ ids_cmd cmd ++ ids l.
Proof.
  induction 1 as [|k l Hk _ IHl]; intros Hnd Hin; [contradiction|].
  cbn [map]. rewrite !ids_cons in *.
  apply NoDup_app in Hnd as (Hk' & Hdis & Hl').
  destruct (in_dec string_dec cid (ids_cmd k)) as [Hik|Hnk].
  - rewrite insert_absent.
    + rewrite (Hk Hk' Hik), app_assoc. reflexivity.
    + intros Hil. apply (Hdis cid); apply list_elem_of_In; assumption.
  - rewrite updateTree_cmd_absent by exact Hnk.
    apply in_app_iff in Hin as [?|Hil]; [contradiction|].
    rewrite (IHl Hl' Hil). apply Permutation_app_swap_app.
Qed.

Lemma insert_cmd_ids k :
  NoDup (ids_cmd k) -> In cid (ids_cmd k) ->
  ids_cmd (updateTree_cmd cid append k) ≡ₚ ids_cmd cmd ++ ids_cmd k.
Proof.
  induction k as [i t v | i t v cs IH] using Command_tree_ind;
    intros Hnd; rewrite updateTree_cmd_eq, in_ids_cmd; cbn [id children];
    destruct (String.eqb_spec i cid) as [E|Hne]; intros Hin; try tauto.
  - rewrite (ids_cmd_eq (withChildren _ _)), (ids_cmd_eq (mkCommand i t v _)).
    cbn [withChildren id children default]. rewrite ids_append.
    generalize (ids_cmd cmd). intros ic. cbn [ids flat_map app].
    apply Permutation_cons_append.
  - rewrite (ids_cmd_eq (withChildren _ _)), (ids_cmd_eq (mkCommand i t v _)).
    cbn [withChildren id children default]. rewrite ids_append.
    generalize (ids_cmd cmd). intros ic.
    rewrite app_comm_cons. apply Permutation_app_comm.
  - destruct Hin as [?|Hin]; [contradiction|].
    rewrite ids_cmd_eq in Hnd. cbn [id children] in Hnd.
    apply NoDup_cons in Hnd as [_ Hcs].
    rewrite (ids_cmd_eq (withChildren _ _)), (ids_cmd_eq (mkCommand i t v _)).
    cbn [withChildren id children].
    unfold updateTree. rewrite (insert_ids_step cs IH Hcs Hin).
    apply Permutation_middle.
Qed.

Lemma insert_ids l :
  NoDup (ids l) -> In cid (ids l) ->
  ids (insert l (Some cid) cmd) ≡ₚ ids_cmd cmd ++ ids l.
Proof.
  apply insert_ids_step, Forall_forall. intros k _. apply insert_cmd_ids.
Qed.

(** With pairwise different identifiers and a [REPEAT] container, an
    insert keeps children under [REPEAT] nodes only. *)
Hypothesis cmd_wf : onlyRepeatHasChildren_cmd cmd = true.

Lemma wf_append l :
  onlyRepeatHasChildren l = true -> onlyRepeatHasChildren (append l) = true.
Proof.
  unfold onlyRepeatHasChildren, append. intros H.
  rewrite forallb_app, H. cbn. rewrite cmd_wf. reflexivity.
Qed.

Lemma insert_wf_step l :
  Forall (fun k => NoDup (ids_cmd k) ->
            onlyRepeatHasChildren_cmd k = true ->
            (forall c, findById_cmd cid k = Some c -> type c = REPEAT) ->
            onlyRepeatHasChildren_cmd (updateTree_cmd cid append k) = true) l ->
  NoDup (ids l) ->
  onlyRepeatHasChildren l = true ->
  (forall c, findById l cid = Some c -> type c = REPEAT) ->
  onlyRepeatHasChildren (map (updateTree_cmd cid append) l) = true.
Proof.
  unfold onlyRepeatHasChildren.
  induction 1 as [|k l Hk _ IHl]; intros Hnd Hw Hr; [reflexivity|].
  cbn [map forallb] in *. apply andb_prop in Hw as [Hw1 Hw2].
  rewrite ids_cons in Hnd. apply NoDup_app in Hnd as (Hk' & Hdis & Hl').
  cbn [findById] in Hr. destruct (findById_cmd cid k) as [f|] eqn:Ef.
  - rewrite Hk; [|assumption..|]; cbn [andb].
    + rewrite insert_absent; [exact Hw2|].
      intros Hil. apply (Hdis cid); apply list_elem_of_In; [|exact Hil].
      destruct (findById_cmd_Some cid k f Ef) as [<- Hn].
      rewrite ids_cmd_nodes. apply in_map, Hn.
    + intros c Hc. apply Hr. rewrite Hc. reflexivity.
  - rewrite updateTree_cmd_absent by (apply findById_cmd_None, Ef).
    rewrite Hw1. cbn [andb]. apply IHl; assumption.
Qed.

Lemma insert_cmd_wf k :
  NoDup (ids_cmd k) ->
  onlyRepeatHasChildren_cmd k = true ->
  (forall c, findById_cmd cid k = Some c -> type c = REPEAT) ->
  onlyRepeatHasChildren_cmd (updateTree_cmd cid append k) = true.
Proof.
  induction k as [i t v | i t v cs IH] using Command_tree_ind;
    intros Hnd Hw; rewrite updateTree_cmd_eq, findById_cmd_eq;
    cbn [id children]; destruct (String.eqb_spec i cid) as [E|Hne];
    intros Hr; try exact Hw.
  - specialize (Hr _ eq_refl). cbn in Hr. subst t. cbn. rewrite cmd_wf.
    reflexivity.
  - specialize (Hr _ eq_refl). cbn in Hr. subst t. cbn in Hw |- *.
    exact (wf_append cs Hw).
  - cbn in Hw |- *. apply andb_prop in Hw as [Ht Hcs]. rewrite Ht. cbn [andb].
    rewrite ids_cmd_eq in Hnd. cbn [id children] in Hnd.
    apply NoDup_cons in Hnd as [_ Hnd].
    exact (insert_wf_step cs IH Hnd Hcs Hr).
Qed.

Lemma insert_wf l :
  NoDup (ids l) ->
  onlyRepeatHasChildren l = true ->
  resolvesToRepeat l cid = true ->
  onlyRepeatHasChildren (insert l (Some cid) cmd) = true.
Proof.
  intros Hnd Hw Hr. apply insert_wf_step; try assumption.
  - apply Forall_forall. intros k _. apply insert_cmd_wf.
  - intros c Hc. unfold resolvesToRepeat in Hr. rewrite Hc in Hr.
    destruct (type c); try discriminate. reflexivity.
Qed.

End InsertFacts.

(* ===================================================================== *)
(** * Further properties of the execution engine *)
(* ===================================================================== *)

Section EngineFrame.
Variable sd : nat -> bool.

Lemma inStep_refl r w : inStep r w (r, w).
Proof. unfold inStep. cbn. auto. Qed.

Lemma inStep_trans r w res1 res2 :
  inStep r w res1 -> inStep (fst res1) (snd res1) res2 -> inStep r w res2.
Proof.
  unfold inStep. intros (A1 & B1 & C1 & D1) (A2 & B2 & C2 & D2).
  repeat split; try congruence. auto.
Qed.

Lemma inStep_sleep r w : inStep r w (r, snd (sleep sd w)).
Proof.
  unfold inStep. rewrite sleep_eq. cbn [fst snd].
  destruct (sd (timers w)); cbn; auto.
Qed.

Lemma runSequence_inStep_step cs :
  Forall (fun c => forall r w, inStep r w (executeCommand sd c r w)) cs ->
  forall r w, inStep r w (runSequence sd cs r w).
Proof.
  induction 1 as [|c l Hc _ IHl]; intros r w; [apply inStep_refl|].
  rewrite runSequence_cons. destruct (stopRef w); [apply inStep_refl|].
  specialize (Hc r w). destruct (executeCommand sd c r w) as [r' w'] eqn:E.
  eapply inStep_trans; [exact Hc | apply IHl].
Qed.

Lemma repeatLoop_inStep n (body : RobotState -> Async RobotState) :
  (forall r w, inStep r w (body r w)) ->
  forall r w, inStep r w (repeatLoop n body r w).
Proof.
  intros Hb. induction n as [|n IH]; intros r w; [apply inStep_refl|].
  rewrite repeatLoop_succ. specialize (Hb r w).
  destruct (body r w) as [r' w']. destruct (stopRef w'); [exact Hb|].
  eapply inStep_trans; [exact Hb | apply IH].
Qed.

Lemma executeCommand_inStep cmd : forall r w,
  inStep r w (executeCommand sd cmd r w).
Proof.
  induction cmd as [i t v | i t v cs IH] using Command_tree_ind; intros r w;
    rewrite executeCommand_eq; destruct (stopRef w); try apply inStep_refl;
    cbn [type children value]; destruct t;
    try (eapply inStep_trans; [apply inStep_sleep|]; cbn [fst snd];
         unfold inStep; cbn; auto; fail);
    try apply inStep_sleep.
  eapply inStep_trans; [apply inStep_sleep|]. cbn [fst snd].
  apply repeatLoop_inStep. apply runSequence_inStep_step, IH.
Qed.

Lemma runSequence_inStep cs r w : inStep r w (runSequence sd cs r w).
Proof.
  apply runSequence_inStep_step, Forall_forall. intros c _.
  apply executeCommand_inStep.
Qed.

Lemma handleRun_frame w :
  commands (snd (handleRun sd w)) = commands w /\
  activeContainerId (snd (handleRun sd w)) = activeContainerId w.
Proof.
  rewrite handleRun_eq. destruct (Nat.eqb (length (commands w)) 0); [auto|].
  cbv zeta.
  set (w0 := resetPosition (setStopRef false (setIsPlaying true w))).
  pose proof (runSequence_inStep (commands w) initialState (snd (sleep sd w0)))
    as (A & B & _).
  pose proof (inStep_sleep initialState w0) as (A0 & B0 & _).
  destruct (runSequence sd (commands w) initialState (snd (sleep sd w0)))
    as [r1 w1].
  cbn [fst snd commands activeContainerId setIsPlaying] in *.
  rewrite A, B, A0, B0. auto.
Qed.

Lemma clickHeaderControl_frame w :
  commands (clickHeaderControl sd w) = commands w /\
  activeContainerId (clickHeaderControl sd w) = activeContainerId w.
Proof.
  unfold clickHeaderControl. destruct (headerControl w) as [[|]|];
    [auto | apply handleRun_frame | auto].
Qed.

(** ** Where a run ends when Stop is pressed *)

Lemma endsAtStop_refl w : stopRef w = false -> endsAtStop sd w w.
Proof.
  intros Hs. split; [lia|]. rewrite Hs. intros j Hj. lia.
Qed.

Lemma endsAtStop_trans w1 w2 w3 :
  endsAtStop sd w1 w2 -> stopRef w2 = false -> endsAtStop sd w2 w3 ->
  endsAtStop sd w1 w3.
Proof.
  intros [L1 Q1] Hs [L2 Q2]. rewrite Hs in Q1. split; [lia|].
  destruct (stopRef w3).
  - destruct Q2 as (k & E & Hk & Hsd & Hq). exists k.
    repeat split; [exact E | lia | exact Hsd|].
    intros j Hj. destruct (Nat.lt_ge_cases j (timers w2)).
    + apply Q1. lia.
    + apply Hq. lia.
  - intros j Hj. destruct (Nat.lt_ge_cases j (timers w2)).
    + apply Q1. lia.
    + apply Q2. lia.
Qed.

Lemma endsAtStop_sleep w :
  stopRef w = false -> endsAtStop sd w (snd (sleep sd w)).
Proof.
  intros Hs. split; [rewrite sleep_timers; lia|].
  rewrite sleep_stopRef, sleep_timers, Hs, orb_false_r.
  destruct (sd (timers w)) eqn:E.
  - exists (timers w). repeat split; [lia | exact E|]. intros j Hj. lia.
  - intros j Hj. assert (j = timers w) as -> by lia. exact E.
Qed.

Lemma runSequence_endsAtStop_step cs :
  Forall (fun c => forall r w, stopRef w = false ->
            endsAtStop sd w (snd (executeCommand sd c r w))) cs ->
  forall r w, stopRef w = false ->
    endsAtStop sd w (snd (runSequence sd cs r w)).
Proof.
  induction 1 as [|c l Hc _ IHl]; intros r w Hs; [apply endsAtStop_refl, Hs|].
  rewrite runSequence_cons, Hs. specialize (Hc r w Hs).
  destruct (executeCommand sd c r w) as [r' w'] eqn:E. cbn [snd] in Hc.
  destruct (stopRef w') eqn:Hs'.
  - rewrite runSequence_stopped by exact Hs'. exact Hc.
  - eapply endsAtStop_trans; [exact Hc | exact Hs' | apply IHl, Hs'].
Qed.

Lemma repeatLoop_endsAtStop n (body : RobotState -> Async RobotState) :
  (forall r w, stopRef w = false -> endsAtStop sd w (snd (body r w))) ->
  forall r w, stopRef w = false ->
    endsAtStop sd w (snd (repeatLoop n body r w)).
Proof.
  intros Hb. induction n as [|n IH]; intros r w Hs; [apply endsAtStop_refl, Hs|].
  rewrite repeatLoop_succ. specialize (Hb r w Hs).
  destruct (body r w) as [r' w']. cbn [snd] in Hb.
  destruct (stopRef w') eqn:Hs'; [exact Hb|].
  eapply endsAtStop_trans; [exact Hb | exact Hs' | apply IH, Hs'].
Qed.

Lemma endsAtStop_setters w w1 w2 :
  endsAtStop sd w w1 -> timers w2 = timers w1 -> stopRef w2 = stopRef w1 ->
  endsAtStop sd w w2.
Proof. unfold endsAtStop. intros H -> ->. exact H. Qed.

Lemma executeCommand_endsAtStop cmd : forall r w,
  stopRef w = false -> endsAtStop sd w (snd (executeCommand sd cmd r w)).
Proof.
  induction cmd as [i t v | i t v cs IH] using Command_tree_ind; intros r w Hs;
    rewrite executeCommand_eq, Hs; cbn [type children value]; destruct t;
    try (eapply endsAtStop_setters;
         [apply endsAtStop_sleep, Hs | reflexivity | reflexivity]).
  pose proof (endsAtStop_sleep w Hs) as H1.
  destruct (stopRef (snd (sleep sd w))) eqn:Hs1.
  - rewrite repeatLoop_stopped by exact Hs1. exact H1.
  - eapply endsAtStop_trans; [exact H1 | exact Hs1 |].
    apply repeatLoop_endsAtStop; [|exact Hs1].
    apply runSequence_endsAtStop_step, IH.
Qed.

Lemma runSequence_endsAtStop cs r w :
  stopRef w = false -> endsAtStop sd w (snd (runSequence sd cs r w)).
Proof.
  apply runSequence_endsAtStop_step, Forall_forall. intros c _.
  apply executeCommand_endsAtStop.
Qed.

End EngineFrame.

Section FullRun.
Variable sd : nat -> bool.
Hypothesis sd_never : forall k, sd k = false.

(** ** The waits of a full run *)

Lemma runSequence_waits_step cs :
  Forall (fun c => forall r w, stopRef w = false ->
            timers (snd (executeCommand sd c r w)) =
            (timers w + waitCount c)%nat) cs ->
  forall r w, stopRef w = false ->
    timers (snd (runSequence sd cs r w)) =
    (timers w + total (map waitCount cs))%nat.
Proof.
  induction 1 as [|c l Hc _ IHl]; intros r w Hw; [cbn; lia|].
  rewrite runSequence_cons, Hw. specialize (Hc r w Hw).
  pose proof (executeCommand_ranFully sd sd_never c r w Hw) as (Hs & _).
  destruct (executeCommand sd c r w) as [r' w']. cbn [snd] in *.
  rewrite (IHl r' w' Hs), Hc. unfold total. cbn [map fold_right]. lia.
Qed.

Lemma rounds_waits n cs m :
  (forall r w, stopRef w = false ->
     timers (snd (runSequence sd cs r w)) = (timers w + m)%nat) ->
  forall r w, stopRef w = false ->
    timers (snd (rounds n (runSequence sd cs) r w)) = (timers w + n * m)%nat.
Proof.
  intros Hb. induction n as [|n IH]; intros r w Hw; [cbn; lia|].
  cbn [rounds]. unfold bind. specialize (Hb r w Hw).
  pose proof (runSequence_ranFully sd sd_never cs r w Hw) as (Hs & _).
  destruct (runSequence sd cs r w) as [r' w']. cbn [snd] in *.
  rewrite (IH r' w' Hs), Hb. lia.
Qed.

Lemma executeCommand_waits cmd : forall r w,
  stopRef w = false ->
  timers (snd (executeCommand sd cmd r w)) = (timers w + waitCount cmd)%nat.
Proof.
  induction cmd as [i t v | i t v cs IH] using Command_tree_ind; intros r w Hw;
    rewrite executeCommand_eq, Hw, sleep_never by exact sd_never;
    cbn [type children value waitCount]; destruct t;
    try (cbn; lia).
  rewrite repeatLoop_rounds by (assumption || exact Hw).
  rewrite (rounds_waits (Z.to_nat v) cs (total (map waitCount cs)));
    [cbn [timers tick]; lia | | exact Hw].
  apply runSequence_waits_step, IH.
Qed.

Lemma runSequence_waits cs r w :
  stopRef w = false ->
  timers (snd (runSequence sd cs r w)) =
  (timers w + total (map waitCount cs))%nat.
Proof.
  apply runSequence_waits_step, Forall_forall. intros c _.
  apply executeCommand_waits.
Qed.

(** ** The heading after a full run *)

Lemma runSequence_angle_step cs :
  Forall (fun c => forall r w, stopRef w = false ->
            angle (fst (executeCommand sd c r w)) =
            (angle r + IZR (netTurn c))%R) cs ->
  forall r w, stopRef w = false ->
    angle (fst (runSequence sd cs r w)) = (angle r + IZR (netTurns cs))%R.
Proof.
  unfold netTurns.
  induction 1 as [|c l Hc _ IHl]; intros r w Hw; [cbn; lra|].
  rewrite runSequence_cons, Hw. specialize (Hc r w Hw).
  pose proof (executeCommand_ranFully sd sd_never c r w Hw) as (Hs & _).
  destruct (executeCommand sd c r w) as [r' w']. cbn [fst snd] in *.
  rewrite (IHl r' w' Hs), Hc. cbn [map fold_right]. rewrite plus_IZR. lra.
Qed.

Lemma rounds_angle n cs m :
  (forall r w, stopRef w = false ->
     angle (fst (runSequence sd cs r w)) = (angle r + IZR m)%R) ->
  forall r w, stopRef w = false ->
    angle (fst (rounds n (runSequence sd cs) r w)) =
    (angle r + IZR (Z.of_nat n * m))%R.
Proof.
  intros Hb. induction n as [|n IH]; intros r w Hw.
  { cbn [rounds ret fst Z.of_nat]. rewrite Z.mul_0_l. lra. }
  cbn [rounds]. unfold bind. specialize (Hb r w Hw).
  pose proof (runSequence_ranFully sd sd_never cs r w Hw) as (Hs & _).
  destruct (runSequence sd cs r w) as [r' w']. cbn [fst snd] in *.
  rewrite (IH r' w' Hs), Hb.
  replace (Z.of_nat (S n) * m)%Z with (m + Z.of_nat n * m)%Z by lia.
  rewrite plus_IZR. lra.
Qed.

Lemma executeCommand_angle cmd : forall r w,
  stopRef w = false ->
  angle (fst (executeCommand sd cmd r w)) = (angle r + IZR (netTurn cmd))%R.
Proof.
  induction cmd as [i t v | i t v cs IH] using Command_tree_ind; intros r w Hw;
    rewrite executeCommand_eq, Hw, sleep_never by exact sd_never;
    cbn [type children value netTurn]; destruct t;
    try (cbn; rewrite ?opp_IZR; lra).
  rewrite repeatLoop_rounds by (assumption || exact Hw).
  apply (rounds_angle (Z.to_nat v) cs
           (fold_right Z.add 0%Z (map netTurn cs))); [|exact Hw].
  apply runSequence_angle_step, IH.
Qed.

Lemma runSequence_angle cs r w :
  stopRef w = false ->
  angle (fst (runSequence sd cs r w)) = (angle r + IZR (netTurns cs))%R.
Proof.
  apply runSequence_angle_step, Forall_forall. intros c _.
  apply executeCommand_angle.
Qed.

End FullRun.

Lemma full_run_heading_aux sd program r w :
  (forall k, sd k = false) ->
  (stopRef w = false ->
   angle (fst (runSequence sd program r w)) =
   (angle r + IZR (netTurns program))%R) /\
  (Nat.eqb (length (commands w)) 0 = false ->
   angle (robotState (snd (handleRun sd w))) =
   (START_ANGLE + IZR (netTurns (commands w)))%R).
Proof.
  intros Hsd. split; [apply runSequence_angle; assumption|].
  intros Hne. rewrite handleRun_eq, Hne. cbv zeta.
  rewrite sleep_never by exact Hsd.
  set (w0 := tick (resetPosition (setStopRef false (setIsPlaying true w)))).
  pose proof (runSequence_angle sd Hsd (commands w) initialState w0 eq_refl) as E.
  pose proof (runSequence_inStep sd (commands w) initialState w0)
    as (_ & _ & _ & Hr).
  destruct (runSequence sd (commands w) initialState w0) as [r1 w1].
  cbn [fst snd robotState setIsPlaying] in *. rewrite (Hr eq_refl). exact E.
Qed.

(** ** What a run draws depends on the program only *)

Section Redraw.

Lemma applyLeaves_poses l : forall r p u1 u2,
  fst (applyLeaves l (r, p, u1)) = fst (applyLeaves l (r, p, u2)).
Proof.
  unfold applyLeaves.
  induction l as [|c l IH]; intros r p u1 u2; [reflexivity|].
  cbn [fold_left applyLeaf]. destruct (type c); apply IH.
Qed.

Lemma handleRun_draws sd w :
  (forall k, sd k = false) ->
  Nat.eqb (length (commands w)) 0 = false ->
  (robotState (snd (handleRun sd w)), path (snd (handleRun sd w))) =
  fst (applyLeaves (flat_map expand (commands w)) (initialState, [origin], [])).
Proof.
  intros Hsd Hw. rewrite handleRun_eq, Hw. cbv zeta.
  rewrite sleep_never by exact Hsd.
  set (w0 := tick (resetPosition (setStopRef false (setIsPlaying true w)))).
  pose proof (runSequence_expand sd Hsd (commands w) initialState w0 eq_refl)
    as E.
  pose proof (runSequence_inStep sd (commands w) initialState w0)
    as (_ & _ & _ & Hr).
  destruct (runSequence sd (commands w) initialState w0) as [r1 w1'].
  cbn [fst snd robotState path setIsPlaying] in *. rewrite (Hr eq_refl).
  unfold observed in E. cbn [fst snd] in E. apply (f_equal fst) in E.
  cbn [fst] in E. rewrite E.
  exact (applyLeaves_poses _ initialState [origin] (poseUpdates w0) []).
Qed.

End Redraw.

Section IdleRepeat.

Lemma repeatLoop_nothing sd n : forall r w,
  repeatLoop n (runSequence sd []) r w = (r, w).
Proof.
  induction n as [|n IH]; intros r w; [reflexivity|].
  rewrite repeatLoop_succ. cbn [runSequence ret].
  destruct (stopRef w); [reflexivity | apply IH].
Qed.

End IdleRepeat.

(* ===================================================================== *)
(** * The invariant of the states the view can reach *)
(* ===================================================================== *)

Section ContainerSurvives.
Variables cid rid : string.

Lemma idsBelow_in_ids l c :
  In c (nodes l) -> In rid (idsBelow c) -> In rid (ids l).
Proof.
  unfold idsBelow. intros Hc Hr. destruct (children c) as [cs|] eqn:E;
    [|contradiction].
  rewrite ids_nodes in Hr. apply in_map_iff in Hr as (d & <- & Hd).
  apply in_nodes_ids, (nodes_below l c d Hc).
  rewrite nodes_cmd_eq, E. right. exact Hd.
Qed.

Lemma idsBelow_in_ids_cmd k c :
  In c (nodes_cmd k) -> In rid (idsBelow c) -> In rid (ids_cmd k).
Proof.
  intros Hc Hr. pose proof (idsBelow_in_ids [k] c) as H.
  unfold nodes, ids in H. cbn [flat_map] in H. rewrite !app_nil_r in H. auto.
Qed.

(** Removing a node from below a container leaves the container to be
    found, when identifiers are pairwise different. *)
Lemma remove_keeps_container_step l :
  Forall (fun k => NoDup (ids_cmd k) -> forall c,
            findById_cmd cid k = Some c -> In rid (idsBelow c) ->
            id k <> rid /\
            findById_cmd cid (recursiveFilter_cmd rid k) =
            Some (recursiveFilter_cmd rid c)) l ->
  NoDup (ids l) -> forall c,
  findById l cid = Some c -> In rid (idsBelow c) ->
  findById (recursiveFilter rid l) cid = Some (recursiveFilter_cmd rid c).
Proof.
  induction 1 as [|k l Hk _ IHl]; intros Hnd c Hf Hr; [discriminate|].
  rewrite ids_cons in Hnd. apply NoDup_app in Hnd as (Hk' & Hdis & Hl').
  cbn [findById] in Hf. rewrite recursiveFilter_cons.
  destruct (findById_cmd cid k) as [f|] eqn:Ef.
  - injection Hf as <-. destruct (Hk Hk' f eq_refl Hr) as [Hne E].
    destruct (String.eqb_spec (id k) rid); [contradiction|].
    cbn [findById]. rewrite E. reflexivity.
  - destruct (findById_Some cid l c Hf) as [_ Hc].
    assert (Hnk : ~ In rid (ids_cmd k)).
    { intros Hin. apply (Hdis rid); apply list_elem_of_In; [exact Hin|].
      exact (idsBelow_in_ids l c Hc Hr). }
    destruct (String.eqb_spec (id k) rid) as [E|_].
    { exfalso. apply Hnk. rewrite ids_cmd_eq. left. exact E. }
    cbn [findById]. rewrite recursiveFilter_cmd_absent by exact Hnk.
    rewrite Ef. exact (IHl Hl' c Hf Hr).
Qed.

Lemma remove_keeps_container_cmd k :
  NoDup (ids_cmd k) -> forall c,
  findById_cmd cid k = Some c -> In rid (idsBelow c) ->
  id k <> rid /\
  findById_cmd cid (recursiveFilter_cmd rid k) =
  Some (recursiveFilter_cmd rid c).
Proof.
  induction k as [i t v | i t v cs IH] using Command_tree_ind;
    intros Hnd c Hf Hr;
    pose proof (findById_cmd_Some cid _ c Hf) as [_ Hc];
    pose proof (idsBelow_in_ids_cmd _ c Hc Hr) as Hin;
    rewrite ids_cmd_eq in Hnd, Hin; cbn [id children] in *;
    apply NoDup_cons in Hnd as [Hi Hcs].
  - destruct Hin as [<-|[]]. rewrite findById_cmd_eq in Hf. cbn in Hf.
    destruct (String.eqb i cid); [|discriminate]. injection Hf as <-.
    contradiction.
  - assert (Hne : i <> rid).
    { intros ->. rewrite findById_cmd_eq in Hf. cbn [id children] in Hf.
      destruct (String.eqb rid cid).
      - injection Hf as <-. apply Hi, list_elem_of_In, Hr.
      - destruct (findById_Some cid cs c Hf) as [_ Hc'].
        apply Hi, list_elem_of_In, (idsBelow_in_ids cs c Hc' Hr). }
    split; [exact Hne|].
    rewrite findById_cmd_eq in Hf. cbn [id children] in Hf.
    rewrite findById_cmd_eq, recursiveFilter_cmd_id. cbn [id].
    destruct (String.eqb i cid); [injection Hf as <-; reflexivity|].
    rewrite recursiveFilter_cmd_eq. cbn [withChildren children option_map].
    exact (remove_keeps_container_step cs IH Hcs c Hf Hr).
Qed.

Lemma remove_keeps_container l c :
  NoDup (ids l) -> findById l cid = Some c -> In rid (idsBelow c) ->
  findById (recursiveFilter rid l) cid = Some (recursiveFilter_cmd rid c).
Proof.
  intros Hnd. revert c. apply remove_keeps_container_step; [|exact Hnd].
  apply Forall_forall. intros k _. apply remove_keeps_container_cmd.
Qed.

End ContainerSurvives.

Section InvariantSteps.

Lemma ids_newCmd uuid t : ids_cmd (newCmd uuid t) = [uuid].
Proof. destruct t; reflexivity. Qed.

Lemma newCmd_wf uuid t : onlyRepeatHasChildren_cmd (newCmd uuid t) = true.
Proof. destruct t; reflexivity. Qed.

Lemma resolvesToRepeat_found l cid :
  resolvesToRepeat l cid = true ->
  exists c, findById l cid = Some c /\ type c = REPEAT.
Proof.
  unfold resolvesToRepeat. destruct (findById l cid) as [c|]; [|discriminate].
  intros H. exists c. split; [reflexivity|].
  destruct (type c); try discriminate. reflexivity.
Qed.

Lemma resolvesToRepeat_in_ids l cid :
  resolvesToRepeat l cid = true -> In cid (ids l).
Proof.
  intros H. destruct (resolvesToRepeat_found l cid H) as (c & Hf & _).
  destruct (findById_Some cid l c Hf) as [<- Hn]. apply in_nodes_ids, Hn.
Qed.

(** The visible commands are nodes of the program. *)
Lemma getVisibleCommands_nodes w c :
  In c (getVisibleCommands w) -> In c (nodes (commands w)).
Proof.
  unfold getVisibleCommands. destruct (activeContainerId w) as [a|];
    [|apply in_nodes_top].
  destruct (String.eqb a ""); [apply in_nodes_top|].
  destruct (findById (commands w) a) as [k|] eqn:E; [|contradiction].
  destruct (findById_Some a _ k E) as [_ Hk].
  destruct (children k) as [cs|] eqn:Ec; [|contradiction]. cbn [default].
  intros Hc. exact (in_nodes_child _ k cs c Hk Ec Hc).
Qed.

(** Each event the view can raise keeps the invariant. *)
Lemma treeInvariant_add uuid t w :
  treeInvariant w -> offered (AddCommand uuid t) w ->
  treeInvariant (handleAddCommand uuid t w).
Proof.
  intros (Hnd & Hne & Hwf & Hact) [Hu Hfresh].
  unfold treeInvariant, handleAddCommand.
  cbn [commands activeContainerId setCommands].
  destruct (activeContainerId w) as [cid|] eqn:Ea.
  - pose proof (resolvesToRepeat_in_ids _ _ Hact) as Hin.
    pose proof (insert_ids cid (newCmd uuid t) (commands w) Hnd Hin) as Hp.
    unfold insert in Hp. rewrite ids_newCmd in Hp. cbn [app] in Hp.
    repeat split.
    + rewrite Hp.
      apply NoDup_cons. split; [rewrite list_elem_of_In; exact Hfresh | exact Hnd].
    + intros H. eapply Permutation_in in H; [|exact Hp]. destruct H as [H|H];
        [exact (Hu H) | exact (Hne H)].
    + apply (insert_wf cid (newCmd uuid t) (newCmd_wf uuid t)); assumption.
    + unfold resolvesToRepeat. rewrite updateTree_find.
      destruct (resolvesToRepeat_found _ _ Hact) as (c & -> & Ht).
      cbn [option_map withChildren type]. rewrite Ht. reflexivity.
  - cbn [updateTree]. rewrite ids_app. unfold onlyRepeatHasChildren.
    rewrite forallb_app. cbn [ids flat_map forallb].
    rewrite ids_newCmd, newCmd_wf, app_nil_r. repeat split.
    + apply NoDup_app. repeat split; [exact Hnd | | apply NoDup_singleton].
      intros i Hi Hi'. apply list_elem_of_In in Hi.
      apply list_elem_of_singleton in Hi'. subst i. exact (Hfresh Hi).
    + rewrite in_app_iff. intros [H|[H|[]]]; [exact (Hne H) | exact (Hu H)].
    + unfold onlyRepeatHasChildren in Hwf. rewrite Hwf. reflexivity.
Qed.

Lemma treeInvariant_remove rid w :
  treeInvariant w -> offered (RemoveCommand rid) w ->
  treeInvariant (handleRemoveCommand rid w).
Proof.
  intros (Hnd & Hne & Hwf & Hact) (d & Hd & <-).
  unfold treeInvariant, handleRemoveCommand.
  cbn [commands activeContainerId setCommands].
  destruct (recursiveFilter_ids (id d) (commands w)) as [Hsub _].
  repeat split.
  - exact (sublist_NoDup _ _ Hnd Hsub).
  - intros H. apply Hne. apply list_elem_of_In.
    apply list_elem_of_In in H. exact (elem_of_sublist _ _ _ H Hsub).
  - apply recursiveFilter_wf, Hwf.
  - unfold getVisibleCommands in Hd.
    destruct (activeContainerId w) as [cid|]; [|exact I].
    destruct (resolvesToRepeat_found _ _ Hact) as (c & Hf & Ht).
    destruct (String.eqb_spec cid "") as [->|_].
    { exfalso. apply Hne. destruct (findById_Some _ _ _ Hf) as [<- Hn].
      apply in_nodes_ids, Hn. }
    rewrite Hf in Hd. destruct (children c) as [cs|] eqn:Ec; [|contradiction].
    cbn [default] in Hd.
    unfold resolvesToRepeat.
    rewrite (remove_keeps_container cid (id d) (commands w) c Hnd Hf).
    + rewrite recursiveFilter_cmd_eq. cbn [withChildren type]. rewrite Ht.
      reflexivity.
    + unfold idsBelow. rewrite Ec. apply in_nodes_ids, in_nodes_top, Hd.
Qed.

Lemma treeInvariant_update uid v w :
  treeInvariant w -> treeInvariant (handleUpdateCommand uid v w).
Proof.
  intros (Hnd & Hne & Hwf & Hact).
  unfold treeInvariant, handleUpdateCommand.
  cbn [commands activeContainerId setCommands].
  fold (updateValue (commands w) uid v).
  rewrite updateValue_ids, updateValue_wf. repeat split; try assumption.
  destruct (activeContainerId w) as [cid|]; [|exact I].
  rewrite (resolvesToRepeat_skeleton _ (commands w)); [exact Hact|].
  apply updateValue_skeleton.
Qed.

Lemma treeInvariant_enter cid w :
  treeInvariant w -> offered (EnterNested cid) w ->
  treeInvariant (setActiveContainerId (Some cid) w).
Proof.
  intros (Hnd & Hne & Hwf & Hact) (d & Hd & <- & Ht).
  unfold treeInvariant. cbn [commands activeContainerId setActiveContainerId].
  repeat split; try assumption.
  unfold resolvesToRepeat.
  rewrite (findById_unique (commands w) d Hnd (getVisibleCommands_nodes w d Hd)).
  rewrite Ht. reflexivity.
Qed.

Lemma treeInvariant_frame w w' :
  commands w' = commands w -> activeContainerId w' = activeContainerId w ->
  treeInvariant w -> treeInvariant w'.
Proof. unfold treeInvariant. intros -> ->. auto. Qed.

Lemma treeInvariant_step e w :
  treeInvariant w -> offered e w -> treeInvariant (dispatch e w).
Proof.
  destruct e as [uuid t | rid | uid v | cid | | | sd]; cbn [dispatch]; intros Hi Ho.
  - apply treeInvariant_add; assumption.
  - apply treeInvariant_remove; assumption.
  - apply treeInvariant_update; assumption.
  - apply treeInvariant_enter; assumption.
  - destruct Hi as (? & ? & ? & _). repeat split; assumption.
  - repeat split; [apply NoDup_nil_2 | intros [] ].
  - destruct (clickHeaderControl_frame sd w) as [A B].
    exact (treeInvariant_frame w _ A B Hi).
Qed.

End InvariantSteps.

(* ===================================================================== *)
(** * Further properties: the command tree and the view *)
(* ===================================================================== *)

Local Open Scope string_scope.

(** X1: [findById] returns a node of the tree that carries the identifier
    asked for, and returns nothing exactly when no node carries it. *)
Theorem findById_sound_and_complete lst fid :
  match findById lst fid with
  | Some found => id found = fid /\ In found (nodes lst)
  | None => ~ In fid (ids lst)
  end.
Proof.
  destruct (findById lst fid) as [found|] eqn:E.
  - exact (findById_Some fid lst found E).
  - apply findById_None, E.
Qed.

(** X2: a command added from the palette shows up at the end of the list
    the user is looking at, whether that is the program or the children of
    the active container; when the active container cannot be found the
    view stays empty. *)
Theorem added_command_is_shown_last uuid t w :
  activeContainerId w <> Some "" ->
  getVisibleCommands (handleAddCommand uuid t w) =
  match activeContainerId w with
  | None => (getVisibleCommands w ++ [newCmd uuid t])%list
  | Some cid =>
      match findById (commands w) cid with
      | Some _ => (getVisibleCommands w ++ [newCmd uuid t])%list
      | None => []
      end
  end.
Proof.
  intros Hne. unfold getVisibleCommands, handleAddCommand.
  cbn [commands activeContainerId setCommands].
  destruct (activeContainerId w) as [cid|]; [|reflexivity].
  destruct (String.eqb_spec cid "") as [->|_]; [contradiction|].
  rewrite updateTree_find.
  destruct (findById (commands w) cid) as [c|]; reflexivity.
Qed.

Lemma added_command_is_shown_last_witness :
  getVisibleCommands
    (handleAddCommand "n" FORWARD
       (setActiveContainerId (Some "b") (idle sampleProgram))) =
  [turnRight "c" 90; newCmd "n" FORWARD].
Proof.
  exact (added_command_is_shown_last "n" FORWARD
           (setActiveContainerId (Some "b") (idle sampleProgram))
           ltac:(discriminate)).
Defined.

(** X3: [remove] adds nothing and keeps the order of what it leaves, and
    afterwards no node carries the removed identifier. *)
Theorem remove_leaves_no_such_node program rid :
  ids (remove program rid) `sublist_of` ids program /\
  ~ In rid (ids (remove program rid)) /\
  findById (remove program rid) rid = None.
Proof.
  destruct (recursiveFilter_ids rid program) as [Hs Hn].
  split; [exact Hs|]. split; [exact Hn | apply findById_None, Hn].
Qed.

(** X4: with pairwise different identifiers, [remove] takes away exactly
    the node with the identifier and everything below it. *)
Theorem remove_takes_the_subtree program rid c :
  NoDup (ids program) ->
  findById program rid = Some c ->
  ids program ≡ₚ (ids_cmd c ++ ids (remove program rid))%list.
Proof. apply recursiveFilter_perm. Qed.

Lemma remove_takes_the_subtree_witness :
  ids sampleProgram ≡ₚ (["b"; "c"] ++ ids (remove sampleProgram "b"))%list.
Proof.
  apply (remove_takes_the_subtree sampleProgram "b"
           (repeatOf "b" 3 [turnRight "c" 90])); [|reflexivity].
  cbn. repeat (apply NoDup_cons_2; [rewrite list_elem_of_In; cbn;
    intros H; repeat destruct H as [H|H]; discriminate H || exact H|]).
  apply NoDup_nil_2.
Defined.

(** X5: removals commute, and removing the same identifier a second time
    changes nothing. *)
Theorem remove_commutes program a b :
  remove (remove program a) b = remove (remove program b) a /\
  remove (remove program a) a = remove program a.
Proof.
  split; [apply recursiveFilter_comm|].
  apply recursiveFilter_absent, recursiveFilter_ids.
Qed.

(** X6: [remove] and the value update never put children under a node
    that is not a [REPEAT]: a program in which only [REPEAT] nodes carry
    children stays one. *)
Theorem edits_keep_children_under_repeat program i v :
  onlyRepeatHasChildren program = true ->
  onlyRepeatHasChildren (remove program i) = true /\
  onlyRepeatHasChildren (updateValue program i v) = true.
Proof.
  intros H. split; [apply recursiveFilter_wf, H|].
  rewrite updateValue_wf. exact H.
Qed.

Lemma edits_keep_children_under_repeat_witness :
  onlyRepeatHasChildren (remove sampleProgram "c") = true /\
  onlyRepeatHasChildren (updateValue sampleProgram "b" 7) = true.
Proof.
  exact (edits_keep_children_under_repeat sampleProgram _ 7 eq_refl).
Defined.

(** X7: the value update changes values only: identifiers, kinds and the
    nesting of the children lists are those of the input. *)
Theorem update_keeps_skeleton program uid v :
  map skeleton (updateValue program uid v) = map skeleton program /\
  ids (updateValue program uid v) = ids program.
Proof. split; [apply updateValue_skeleton | apply updateValue_ids]. Qed.

(** X8: after the value update, looking the identifier up gives the node
    it gave before with the new value, and nothing if it gave nothing. *)
Theorem update_then_find program uid v :
  findById (updateValue program uid v) uid =
  option_map (fun c => withValue c v) (findById program uid).
Proof. apply updateValue_find. Qed.

(** X9: the value update of an identifier that occurs nowhere returns the
    program unchanged. *)
Theorem update_unknown_id_noop program uid v :
  ~ In uid (ids program) -> updateValue program uid v = program.
Proof. apply updateValue_absent. Qed.

Lemma update_unknown_id_noop_witness :
  updateValue sampleProgram "zz" 5 = sampleProgram.
Proof.
  apply (update_unknown_id_noop sampleProgram "zz" 5).
  cbn. intros [H|[H|[H|[]]]]; discriminate H.
Defined.

(** X10: of two value updates of the same identifier the second wins. *)
Theorem update_last_write_wins program uid v1 v2 :
  updateValue (updateValue program uid v1) uid v2 = updateValue program uid v2.
Proof. apply updateValue_twice. Qed.

(** X11: inserting a well-formed command with a new identifier into a
    [REPEAT] container of a program with pairwise different identifiers
    appends it to the children of that container and adds nothing else;
    identifiers stay pairwise different, children stay under [REPEAT]
    nodes, and the container is still found. *)
Theorem insert_into_repeat_container program cid c uuid t :
  NoDup (ids program) ->
  onlyRepeatHasChildren program = true ->
  findById program cid = Some c ->
  type c = REPEAT ->
  ~ In uuid (ids program) ->
  let program' := insert program (Some cid) (newCmd uuid t) in
  findById program' cid =
    Some (withChildren c
            (Some (default [] (children c) ++ [newCmd uuid t])%list)) /\
  ids program' ≡ₚ uuid :: ids program /\
  NoDup (ids program') /\
  onlyRepeatHasChildren program' = true.
Proof.
  intros Hnd Hwf Hf Ht Hfresh. cbv zeta.
  assert (Hr : resolvesToRepeat program cid = true).
  { unfold resolvesToRepeat. rewrite Hf, Ht. reflexivity. }
  assert (Hp : ids (insert program (Some cid) (newCmd uuid t))
               ≡ₚ uuid :: ids program).
  { rewrite (insert_ids cid (newCmd uuid t) program Hnd
               (resolvesToRepeat_in_ids _ _ Hr)), ids_newCmd. reflexivity. }
  split; [unfold insert; rewrite updateTree_find, Hf; reflexivity|].
  split; [exact Hp|]. split.
  - rewrite Hp. apply NoDup_cons. split; [rewrite list_elem_of_In|]; assumption.
  - apply (insert_wf cid (newCmd uuid t) (newCmd_wf uuid t)); assumption.
Qed.

Lemma insert_into_repeat_container_witness :
  findById (insert sampleProgram (Some "b") (newCmd "n" REPEAT)) "b" =
  Some (repeatOf "b" 3 [turnRight "c" 90; newCmd "n" REPEAT]).
Proof.
  refine (proj1 (insert_into_repeat_container sampleProgram "b"
                   (repeatOf "b" 3 [turnRight "c" 90]) "n" REPEAT
                   _ eq_refl eq_refl eq_refl _)).
  - cbn. repeat (apply NoDup_cons_2; [rewrite list_elem_of_In; cbn;
      intros H; repeat destruct H as [H|H]; discriminate H || exact H|]).
    apply NoDup_nil_2.
  - cbn. intros [H|[H|[H|[]]]]; discriminate H.
Defined.

(** X12: in every state the application reaches through the events of the
    view, identifiers are non-empty and pairwise different, only [REPEAT]
    nodes carry children, and the active container is [null] or names a
    [REPEAT] node of the program: an insert never meets a container that
    is missing or of another kind. *)
Theorem reachable_treeInvariant w : reachable w -> treeInvariant w.
Proof.
  induction 1 as [|e w _ IH Ho].
  - repeat split; [apply NoDup_nil_2 | intros []].
  - exact (treeInvariant_step e w IH Ho).
Qed.

Lemma reachable_treeInvariant_witness :
  treeInvariant
    (dispatch (EnterNested "r")
       (dispatch (AddCommand "r" REPEAT)
          (mkWorld [] None initialState [origin] false false 0%nat []))).
Proof.
  apply reachable_treeInvariant.
  apply reachable_step; [apply reachable_step; [apply reachable_init|]|].
  - split; [discriminate | intros []].
  - exists (newCmd "r" REPEAT). repeat split. left. reflexivity.
Defined.

Local Close Scope string_scope.

(* ===================================================================== *)
(** * Further properties: the engine and the run controller *)
(* ===================================================================== *)

(** X13: whatever the moment Stop is pressed, the engine changes neither
    the program nor the active container nor the pen, and the pose shown
    to the view is the pose the engine holds whenever it was so before;
    this holds for a command, a sequence and a whole run. *)
Theorem engine_leaves_the_program_alone sd cmd cs r w :
  let res := executeCommand sd cmd r w in
  let res' := runSequence sd cs r w in
  (commands (snd res) = commands w /\
   activeContainerId (snd res) = activeContainerId w /\
   penDown (fst res) = penDown r /\
   (robotState w = r -> robotState (snd res) = fst res)) /\
  (commands (snd res') = commands w /\
   activeContainerId (snd res') = activeContainerId w /\
   penDown (fst res') = penDown r /\
   (robotState w = r -> robotState (snd res') = fst res')) /\
  commands (snd (handleRun sd w)) = commands w /\
  activeContainerId (snd (handleRun sd w)) = activeContainerId w.
Proof.
  cbv zeta. split; [apply executeCommand_inStep|].
  split; [apply runSequence_inStep | apply handleRun_frame].
Qed.

Lemma engine_leaves_the_program_alone_witness :
  robotState (snd (executeCommand stopAtFirstCommand
                     (repeatOf "b" 3 [turnRight "c" 90]) initialState
                     (idle sampleProgram))) =
  fst (executeCommand stopAtFirstCommand
         (repeatOf "b" 3 [turnRight "c" 90]) initialState (idle sampleProgram)).
Proof.
  exact (proj2 (proj2 (proj2 (proj1
    (engine_leaves_the_program_alone stopAtFirstCommand
       (repeatOf "b" 3 [turnRight "c" 90]) [] initialState
       (idle sampleProgram))))) eq_refl).
Defined.

(** X14: a run that is not stopped waits once for every command it
    enters, [REPEAT] nodes included, and once more at the start: a command
    takes [waitCount] waits and a run of a non-empty program one more than
    the sum over its commands. *)
Theorem full_run_waits sd cmd r w :
  (forall k, sd k = false) ->
  stopRef w = false ->
  timers (snd (executeCommand sd cmd r w)) = (timers w + waitCount cmd)%nat /\
  (Nat.eqb (length (commands w)) 0 = false ->
   timers (snd (handleRun sd w)) =
   (timers w + 1 + total (map waitCount (commands w)))%nat).
Proof.
  intros Hsd Hs. split; [apply executeCommand_waits; assumption|].
  intros Hne. rewrite handleRun_eq, Hne. cbv zeta.
  rewrite sleep_never by exact Hsd.
  set (w0 := tick (resetPosition (setStopRef false (setIsPlaying true w)))).
  pose proof (runSequence_waits sd Hsd (commands w) initialState w0 eq_refl) as E.
  destruct (runSequence sd (commands w) initialState w0) as [r1 w1].
  cbn [snd timers setIsPlaying] in *. rewrite E. subst w0. cbn. lia.
Qed.

Lemma full_run_waits_witness :
  timers (snd (handleRun neverStopped (idle sampleProgram))) = 6%nat.
Proof.
  exact (proj2 (full_run_waits neverStopped (forward "a" 2) initialState
                  (idle sampleProgram) (fun _ => eq_refl) eq_refl) eq_refl).
Defined.

(** X15: Stop takes effect within the wait during which it is pressed.
    If the flag is set when a command or a run returns, the last wait
    that elapsed is the first one during which Stop was pressed; if the
    flag is clear, Stop was pressed during none of the waits. *)
Theorem stop_ends_the_run_within_the_wait sd cmd r w :
  (stopRef w = false ->
   let w' := snd (executeCommand sd cmd r w) in
   if stopRef w'
   then exists k, timers w' = S k /\ (timers w <= k)%nat /\ sd k = true /\
                  quiet sd (timers w) k
   else quiet sd (timers w) (timers w')) /\
  (Nat.eqb (length (commands w)) 0 = false ->
   let w' := snd (handleRun sd w) in
   if stopRef w'
   then exists k, timers w' = S k /\ (timers w <= k)%nat /\ sd k = true /\
                  quiet sd (timers w) k
   else quiet sd (timers w) (timers w')).
Proof.
  split.
  - intros Hs. exact (proj2 (executeCommand_endsAtStop sd cmd r w Hs)).
  - intros Hne. cbv zeta. rewrite handleRun_eq, Hne. cbv zeta.
    set (w0 := resetPosition (setStopRef false (setIsPlaying true w))).
    pose proof (endsAtStop_sleep sd w0 eq_refl) as H1.
    assert (H : endsAtStop sd w0
                  (snd (runSequence sd (commands w) initialState
                          (snd (sleep sd w0))))).
    { destruct (stopRef (snd (sleep sd w0))) eqn:Hs1.
      - rewrite runSequence_stopped by exact Hs1. exact H1.
      - eapply endsAtStop_trans; [exact H1 | exact Hs1 |].
        apply runSequence_endsAtStop, Hs1. }
    destruct (runSequence sd (commands w) initialState (snd (sleep sd w0)))
      as [r1 w1].
    exact (proj2 H).
Qed.

Lemma stop_ends_the_run_within_the_wait_witness :
  exists k, timers (snd (executeCommand stopAtFirstCommand (forward "a" 2)
                           initialState (tick (idle [])))) = S k /\
            (1 <= k)%nat /\ stopAtFirstCommand k = true /\
            quiet stopAtFirstCommand 1 k.
Proof.
  exact (proj1 (stop_ends_the_run_within_the_wait stopAtFirstCommand
                  (forward "a" 2) initialState (tick (idle []))) eq_refl).
Defined.

(** X16: the heading after a run that is not stopped is the heading at
    the start plus the net turn of the program, right turns counted
    positive and every [REPEAT] counted once per round; movements do not
    change it and it is not reduced to any range. *)
Theorem full_run_heading sd program r w :
  (forall k, sd k = false) ->
  stopRef w = false ->
  angle (fst (runSequence sd program r w)) = (angle r + IZR (netTurns program))%R /\
  (Nat.eqb (length (commands w)) 0 = false ->
   angle (robotState (snd (handleRun sd w))) =
   (START_ANGLE + IZR (netTurns (commands w)))%R).
Proof.
  intros Hsd Hs.
  destruct (full_run_heading_aux sd program r w Hsd) as [H1 H2].
  split; [exact (H1 Hs) | exact H2].
Qed.

Lemma full_run_heading_witness :
  angle (robotState (snd (handleRun neverStopped (idle sampleProgram)))) =
  (START_ANGLE + 270)%R.
Proof.
  exact (proj2 (full_run_heading neverStopped sampleProgram initialState
                  (idle sampleProgram) (fun _ => eq_refl) eq_refl) eq_refl).
Defined.

(** X17: what a run that is not stopped draws depends on the program
    only: started while nothing is pending, from any two states that hold
    the same non-empty program, the run comes to its end and leaves the
    same path and the same pose; so running again once the run is over
    redraws the same path. *)
Theorem run_draws_the_same_again sd (m1 m2 : Machine) :
  (forall k, sd k = false) ->
  pending m1 = [] ->
  pending m2 = [] ->
  commands (world m1) = commands (world m2) ->
  Nat.eqb (length (commands (world m1))) 0 = false ->
  exists w1 w2 w3,
    (exists fuel, drive sd fuel (startRun m1) = Some w1) /\
    (exists fuel, drive sd fuel (startRun m2) = Some w2) /\
    (exists fuel, drive sd fuel (startRun (mkMachine w1 [])) = Some w3) /\
    path w1 = path w2 /\
    robotState w1 = robotState w2 /\
    path w3 = path w1.
Proof.
  destruct m1 as [w1 p1], m2 as [w2 p2]. cbn [world pending].
  intros Hsd -> -> Hc Hne.
  exists (snd (handleRun sd w1)), (snd (handleRun sd w2)),
         (snd (handleRun sd (snd (handleRun sd w1)))).
  split; [apply startRun_handleRun|].
  split; [apply startRun_handleRun|].
  split; [apply startRun_handleRun|].
  pose proof (handleRun_draws sd w1 Hsd Hne) as E1.
  assert (Hne2 : Nat.eqb (length (commands w2)) 0 = false)
    by (rewrite <- Hc; exact Hne).
  pose proof (handleRun_draws sd w2 Hsd Hne2) as E2.
  rewrite <- Hc in E2. rewrite <- E2 in E1.
  injection E1 as Er Ep. split; [exact Ep|]. split; [exact Er|].
  destruct (handleRun_frame sd w1) as [Hf _].
  assert (Hne3 : Nat.eqb (length (commands (snd (handleRun sd w1)))) 0 = false)
    by (rewrite Hf; exact Hne).
  pose proof (handleRun_draws sd _ Hsd Hne3) as E3. rewrite Hf in E3.
  pose proof (handleRun_draws sd w1 Hsd Hne) as E1'. rewrite <- E1' in E3.
  injection E3 as _ Ep3. exact Ep3.
Qed.

Lemma run_draws_the_same_again_witness :
  let m1 := mkMachine (idle [forward "a" 1]) [] in
  let m2 := mkMachine (snd (handleRun neverStopped (idle [forward "a" 1]))) [] in
  exists w1 w2 w3,
    (exists fuel, drive neverStopped fuel (startRun m1) = Some w1) /\
    (exists fuel, drive neverStopped fuel (startRun m2) = Some w2) /\
    (exists fuel, drive neverStopped fuel (startRun (mkMachine w1 [])) = Some w3) /\
    path w1 = path w2 /\
    robotState w1 = robotState w2 /\
    path w3 = path w1.
Proof.
  exact (run_draws_the_same_again neverStopped
           (mkMachine (idle [forward "a" 1]) [])
           (mkMachine (snd (handleRun neverStopped (idle [forward "a" 1]))) [])
           (fun _ => eq_refl) eq_refl eq_refl eq_refl eq_refl).
Defined.

(** X20: distances are signed and not checked: a move forward by [-v]
    ends where a move backward by [v] ends, and a move by zero stays in
    place but still appends a sample, the current position, to the
    path. *)
Theorem signed_and_zero_distances sd c1 c2 r w :
  stopRef w = false ->
  type c1 = FORWARD ->
  (type c2 = BACKWARD -> value c1 = (- value c2)%Z ->
   x (fst (executeCommand sd c1 r w)) = x (fst (executeCommand sd c2 r w)) /\
   y (fst (executeCommand sd c1 r w)) = y (fst (executeCommand sd c2 r w))) /\
  (value c1 = 0%Z ->
   let r' := fst (executeCommand sd c1 r w) in
   x r' = x r /\ y r' = y r /\
   path (snd (executeCommand sd c1 r w)) = path w ++ [mkPoint (x r') (y r')]).
Proof.
  intros Hs H1. split.
  - intros H2 Hv.
    rewrite (executeCommand_move sd c1 r w Hs (or_introl H1)).
    rewrite (executeCommand_move sd c2 r w Hs (or_intror H2)).
    cbn [fst]. unfold moved. rewrite H1, H2, Hv, opp_IZR. cbn [x y].
    split; ring.
  - intros Hv. cbv zeta.
    rewrite (executeCommand_move sd c1 r w Hs (or_introl H1)).
    cbn [fst snd path setPath setRobotState]. rewrite sleep_path.
    unfold moved. rewrite Hv. cbn [x y].
    repeat split; try ring.
Qed.

Lemma signed_and_zero_distances_witness :
  path (snd (executeCommand neverStopped (forward "a" 0) initialState (idle []))) =
  path (idle []) ++
  [mkPoint (x (fst (executeCommand neverStopped (forward "a" 0) initialState
                      (idle []))))
           (y (fst (executeCommand neverStopped (forward "a" 0) initialState
                      (idle []))))].
Proof.
  exact (proj2 (proj2 (proj2 (signed_and_zero_distances neverStopped
                  (forward "a" 0) (forward "a" 0) initialState (idle [])
                  eq_refl eq_refl) eq_refl))).
Defined.

(** X21: a [REPEAT] whose count is zero or negative, or whose list of
    children is empty or missing, runs nothing whatever its count: it
    costs its one wait and leaves pose, path and published poses as they
    were. *)
Theorem idle_repeat_costs_one_wait sd cmd r w :
  stopRef w = false ->
  type cmd = REPEAT ->
  (value cmd <= 0)%Z \/ children cmd = Some [] \/ children cmd = None ->
  executeCommand sd cmd r w = (r, snd (sleep sd w)) /\
  timers (snd (executeCommand sd cmd r w)) = S (timers w) /\
  observed (executeCommand sd cmd r w) = observed (r, w).
Proof.
  intros Hs Ht Hor.
  assert (E : executeCommand sd cmd r w = (r, snd (sleep sd w))).
  { rewrite executeCommand_eq, Hs, Ht. cbv zeta.
    destruct (children cmd) as [cs|] eqn:Ec; [|reflexivity].
    destruct Hor as [Hv | [Hc | Hc]]; [| |discriminate].
    - replace (Z.to_nat (value cmd)) with 0%nat by lia. reflexivity.
    - injection Hc as ->. apply repeatLoop_nothing. }
  rewrite E. split; [reflexivity|]. split; [apply sleep_timers|].
  apply observed_sleep.
Qed.

Lemma idle_repeat_costs_one_wait_witness :
  timers (snd (executeCommand neverStopped (repeatOf "b" (-3) [forward "a" 1])
                 initialState (idle []))) = 1%nat.
Proof.
  refine (proj1 (proj2 (idle_repeat_costs_one_wait neverStopped
                          (repeatOf "b" (-3) [forward "a" 1]) initialState
                          (idle []) eq_refl eq_refl (or_introl _)))).
  cbn. lia.
Defined.

(* ===================================================================== *)
(** * Further properties: what the view shows *)
(* ===================================================================== *)

Lemma Math_round_IZR z : Math_round (IZR z) = z.
Proof.
  unfold Math_round. symmetry. apply Int_part_spec. lra.
Qed.



(** X23: the angle shown in the overlay is always strictly between -360
    and 360 and takes the sign of the heading plus 90; after a run that is
    not stopped it is the remainder of the program's net turn by 360, so a
    program that turns left more than right is shown a negative angle. *)
Theorem overlay_angle_after_a_run sd w r :
  (Z.abs (overlayAngle r) < 360)%Z /\
  ((forall k, sd k = false) ->
   Nat.eqb (length (commands w)) 0 = false ->
   overlayAngle (robotState (snd (handleRun sd w))) =
   Z.rem (netTurns (commands w)) 360).
Proof.
  split; [apply Z.rem_bound_abs; discriminate|].
  intros Hsd Hne. unfold overlayAngle.
  pose proof (proj2 (full_run_heading_aux sd (commands w) initialState w Hsd)
                Hne) as E.
  rewrite E. unfold START_ANGLE.
  replace (-90 + IZR (netTurns (commands w)) + 90)%R
    with (IZR (netTurns (commands w))) by lra.
  rewrite Math_round_IZR. reflexivity.
Qed.

Lemma overlay_angle_after_a_run_witness :
  overlayAngle
    (robotState (snd (handleRun neverStopped
                        (idle [mkCommand "l"%string TURN_LEFT 90 None])))) =
  (-90)%Z.
Proof.
  exact (proj2 (overlay_angle_after_a_run neverStopped
                  (idle [mkCommand "l"%string TURN_LEFT 90 None]) initialState)
           (fun _ => eq_refl) eq_refl).
Defined.

(** X24: from the initial pose, which points up, a move forward by [v]
    is shown in the overlay as X = 0 and Y = [v]. *)
Theorem overlay_after_first_move sd cmd w :
  stopRef w = false ->
  type cmd = FORWARD ->
  let r' := fst (executeCommand sd cmd initialState w) in
  overlayX r' = 0%Z /\ overlayY r' = value cmd.
Proof.
  intros Hs Ht. cbv zeta.
  rewrite (executeCommand_move sd cmd initialState w Hs (or_introl Ht)).
  cbn [fst]. unfold overlayX, overlayY, moved, initialState. rewrite Ht.
  cbn [x y angle]. unfold toRad, START_ANGLE, START_X, START_Y,
    CANVAS_WIDTH, CANVAS_HEIGHT, GRID_SIZE.
  replace (-90 * PI / 180)%R with (- (PI / 2))%R by lra.
  rewrite cos_neg, sin_neg, cos_PI2, sin_PI2. split.
  - rewrite <- (Math_round_IZR 0) at 2. f_equal. field.
  - rewrite <- (Math_round_IZR (value cmd)) at 2. f_equal. field.
Qed.

Lemma overlay_after_first_move_witness :
  overlayY (fst (executeCommand neverStopped (forward "a" 2) initialState
                   (idle []))) = 2%Z.
Proof.
  exact (proj2 (overlay_after_first_move neverStopped (forward "a" 2) (idle [])
                  eq_refl eq_refl)).
Defined.

(** X25: the language the application starts in is always one of the five
    it supports: the part of the browser's language before the first
    hyphen if that is supported, whatever follows the hyphen, and Catalan
    otherwise. *)
Theorem initial_language_is_supported navigatorLanguage :
  In (initialLanguage navigatorLanguage) supportedLanguages /\
  (forall l region,
     In l supportedLanguages ->
     initialLanguage (l ++ "-" ++ region)%string = l /\
     initialLanguage l = l) /\
  (~ In (beforeHyphen navigatorLanguage) supportedLanguages ->
   initialLanguage navigatorLanguage = "ca"%string).
Proof.
  unfold initialLanguage. repeat split.
  - destruct (existsb _ supportedLanguages) eqn:E; [|left; reflexivity].
    apply existsb_exists in E as (l & Hl & El).
    apply String.eqb_eq in El. rewrite El. exact Hl.
  - cbn in H. destruct H as [<-|[<-|[<-|[<-|[<-|[]]]]]]; reflexivity.
  - cbn in H. destruct H as [<-|[<-|[<-|[<-|[<-|[]]]]]]; reflexivity.
  - intros Hn. destruct (existsb _ supportedLanguages) eqn:E; [|reflexivity].
    exfalso. apply Hn. apply existsb_exists in E as (l & Hl & El).
    apply String.eqb_eq in El. rewrite El. exact Hl.
Qed.

Lemma initial_language_is_supported_witness :
  initialLanguage "es-ES" = "es"%string /\
  initialLanguage "fr-FR" = "ca"%string.
Proof.
  split.
  - exact (proj1 (proj1 (proj2 (initial_language_is_supported "es-ES"))
                    "es"%string "ES"%string
                    (or_intror (or_introl eq_refl)))).
  - refine (proj2 (proj2 (initial_language_is_supported "fr-FR")) _).
    cbn. intros [H|[H|[H|[H|[H|[]]]]]]; discriminate H.
Defined.
